(** * Graph builder of [quartz/components/scripts/graph.inline.ts]

    A shallow embedding of the graph panel script: the visited-page store
    ([getVisited], [addToVisited]), the construction of the edge list and of
    the tag nodes, the level-bounded traversal that computes the
    neighbourhood of the focus page, the filtering that yields [graphData],
    and the tables each of the four renderers hands to d3.

    Conventions.
    - A slug is a [string]; a JavaScript [Set] is the list of its elements
      in insertion order, without repetition.
    - The content index ([data]) is the list of its entries in the order
      [Object.entries] enumerates them.
    - [simplifySlug] lives in [util/path], outside this script; it is a
      parameter of the development.
    - The [while] loop of the traversal is run with fuel; [None] means that
      the fuel ran out before the loop condition became false. *)

From Stdlib Require Import List String Ascii Bool Arith ZArith Lia Reals Lra.
From Stdlib Require Import Permutation.
From Stdlib Require PrimFloat FloatOps Uint63.
Import ListNotations.
Open Scope string_scope.
Open Scope list_scope.

(** ** JavaScript sets *)

Section JSSet.
Context {A : Type} (same : A -> A -> bool).

(** [s.has(x)] *)
Definition Set_has (s : list A) (x : A) : bool := existsb (same x) s.

(** [s.add(x)]: a new element goes last, a present one changes nothing. *)
Definition Set_add (s : list A) (x : A) : list A :=
  if Set_has s x then s else s ++ [x].

(** [new Set(l)] and [l.forEach(x => s.add(x))] *)
Definition Set_addAll (s : list A) (l : list A) : list A :=
  fold_left Set_add l s.

Definition new_Set (l : list A) : list A := Set_addAll [] l.
End JSSet.

(** ** Data of the script *)

Definition SimpleSlug := string.
Definition FullSlug := string.

(** [ContentDetails] of the content index; [links] may be missing
    ([details.links ?? []]). *)
Record ContentDetails := mkDetails {
  title : string;
  links : option (list SimpleSlug);
  tags : list string
}.

Record LinkData := mkLink {
  source : SimpleSlug;
  target : SimpleSlug
}.

Record NodeData := mkNode {
  id : SimpleSlug;
  text : string;
  node_tags : list string
}.

(** The options of [graph.dataset.cfg] the graph builder reads. *)
Record Config := mkConfig {
  depth : Z;
  removeTags : list string;
  showTags : bool
}.

Definition ContentIndex := list (FullSlug * ContentDetails).


Definition has := Set_has String.eqb.
Definition add := Set_add String.eqb.

(** [arr.includes(x)] on an array of strings *)
Definition includes (arr : list string) (x : string) : bool :=
  existsb (String.eqb x) arr.

(** [data[url]] *)
Fixpoint lookup (data : ContentIndex) (url : string) : option ContentDetails :=
  match data with
  | [] => None
  | (k, v) :: rest => if String.eqb k url then Some v else lookup rest url
  end.

(** [s.startsWith(p)] *)
Definition startsWith (s p : string) : bool := String.prefix p s.

(** [s.substring(n)] *)
Definition substring_from (n : nat) (s : string) : string :=
  String.substring n (String.length s - n) s.

Definition SENTINEL : string := "__SENTINEL".

Section GraphBuilder.
Variable simplifySlug : FullSlug -> SimpleSlug.

(** *** Edge construction (lines 52-78, again at 544-570) *)

(** [new Set(Object.keys(data).map((slug) => simplifySlug(slug)))] *)
Definition validLinks (data : ContentIndex) : list SimpleSlug :=
  new_Set String.eqb (map (fun e => simplifySlug (fst e)) data).

(** [for (const dest of outgoing) if (validLinks.has(dest)) links.push(..)] *)
Definition push_outgoing (valid : list SimpleSlug) (src : SimpleSlug)
    (acc : list LinkData) (dest : SimpleSlug) : list LinkData :=
  if has valid dest then acc ++ [mkLink src dest] else acc.

(** [details.tags.filter(..).map((tag) => simplifySlug("tags/" + tag))] *)
Definition localTags (cfg : Config) (details : ContentDetails) : list SimpleSlug :=
  map (fun tag => simplifySlug ("tags/" ++ tag)%string)
      (filter (fun tag => negb (includes (removeTags cfg) tag)) (tags details)).

(** One turn of the loop over [Object.entries(data)]; the accumulator is
    the pair of the arrays [links] and [tags]. *)
Definition entry_step (cfg : Config) (valid : list SimpleSlug)
    (acc : list LinkData * list SimpleSlug)
    (entry : FullSlug * ContentDetails) : list LinkData * list SimpleSlug :=
  let '(lks, tgs) := acc in
  let '(src, details) := entry in
  let src' := simplifySlug src in
  let outgoing := match links details with Some l => l | None => [] end in
  let lks := fold_left (push_outgoing valid src') outgoing lks in
  if showTags cfg then
    let lt := localTags cfg details in
    let tgs' := tgs ++ filter (fun tag => negb (includes tgs tag)) lt in
    let lks := fold_left (fun acc tag => acc ++ [mkLink src' tag]) lt lks in
    (lks, tgs')
  else (lks, tgs).

Definition buildGraph (data : ContentIndex) (cfg : Config)
    : list LinkData * list SimpleSlug :=
  fold_left (entry_step cfg (validLinks data)) data ([], []).

(** The edges one entry contributes: those of its outgoing links whose
    target is a key, then, when tags are shown, one to each of its tags. *)
Definition link_edges (valid : list SimpleSlug)
    (entry : FullSlug * ContentDetails) : list LinkData :=
  map (mkLink (simplifySlug (fst entry)))
      (filter (has valid)
              (match links (snd entry) with Some l => l | None => [] end)).

Definition tag_edges (cfg : Config)
    (entry : FullSlug * ContentDetails) : list LinkData :=
  map (mkLink (simplifySlug (fst entry))) (localTags cfg (snd entry)).

Definition entry_edges (cfg : Config) (valid : list SimpleSlug)
    (entry : FullSlug * ContentDetails) : list LinkData :=
  link_edges valid entry ++ (if showTags cfg then tag_edges cfg entry else []).

(** The full edge list and the tag nodes. *)
Definition fullLinks (data : ContentIndex) (cfg : Config) : list LinkData :=
  fst (buildGraph data cfg).

Definition tagNodes (data : ContentIndex) (cfg : Config) : list SimpleSlug :=
  snd (buildGraph data cfg).

(** *** Bounded traversal (lines 80-95, again at 572-587) *)

Record bfs_state := mkState {
  st_depth : Z;
  st_wl : list string;
  st_neighbourhood : list SimpleSlug
}.

(** [links.filter((l) => l.source === cur).map((l) => l.target)] followed by
    [links.filter((l) => l.target === cur).map((l) => l.source)] *)
Definition pushed (lks : list LinkData) (cur : string) : list string :=
  map target (filter (fun l => String.eqb (source l) cur) lks)
  ++ map source (filter (fun l => String.eqb (target l) cur) lks).

(** [depth >= 0 && wl.length > 0] *)
Definition loop_cond (st : bfs_state) : bool :=
  (0 <=? st_depth st)%Z && negb (Nat.eqb (List.length (st_wl st)) 0).

(** The body of the [while] loop, with [depth--] read on the integers;
    [loop_body64] below reads it on the numbers of JavaScript, and the two
    are the same for every hop limit up to [2 ^ 53]. *)
Definition loop_body (lks : list LinkData) (st : bfs_state) : bfs_state :=
  match st_wl st with
  | [] => st
  | cur :: wl =>
      if String.eqb cur SENTINEL then
        mkState (st_depth st - 1) (wl ++ [SENTINEL]) (st_neighbourhood st)
      else
        mkState (st_depth st) (wl ++ pushed lks cur)
                (add (st_neighbourhood st) cur)
  end.

Fixpoint while_loop (fuel : nat) (lks : list LinkData) (st : bfs_state)
    : option bfs_state :=
  if loop_cond st then
    match fuel with
    | O => None
    | S fuel' => while_loop fuel' lks (loop_body lks st)
    end
  else Some st.

(** State on entry: [neighbourhood = new Set()], [wl = [slug, "__SENTINEL"]]. *)
Definition initial (slug : SimpleSlug) (d : Z) : bfs_state :=
  mkState d [slug; SENTINEL] [].

(** *** The loop with the numbers of JavaScript

    [depth] is a binary64 number.  [round64] rounds an integer to the
    nearest integer that binary64 holds, ties to the even significand
    (below [2 ^ 1024]): it leaves every integer below [2 ^ 53] as it is.
    [loop_body64] is [loop_body] with [depth--] rounded. *)
Definition round64 (z : Z) : Z :=
  let a := Z.abs z in
  if (a <? 2 ^ 53)%Z then z
  else
    let u := (2 ^ (Z.log2 a - 52))%Z in
    let q := (a / u)%Z in
    let r := (a mod u)%Z in
    let q' := if (2 * r <? u)%Z then q
              else if (u <? 2 * r)%Z then (q + 1)%Z
              else if Z.even q then q else (q + 1)%Z in
    (Z.sgn z * (q' * u))%Z.

Definition loop_body64 (lks : list LinkData) (st : bfs_state) : bfs_state :=
  match st_wl st with
  | [] => st
  | cur :: wl =>
      if String.eqb cur SENTINEL then
        mkState (round64 (st_depth st - 1)) (wl ++ [SENTINEL])
                (st_neighbourhood st)
      else
        mkState (st_depth st) (wl ++ pushed lks cur)
                (add (st_neighbourhood st) cur)
  end.

Fixpoint while_loop64 (fuel : nat) (lks : list LinkData) (st : bfs_state)
    : option bfs_state :=
  if loop_cond st then
    match fuel with
    | O => None
    | S fuel' => while_loop64 fuel' lks (loop_body64 lks st)
    end
  else Some st.

(** The iterations the loop makes.  A level is the run of the queue up to
    its first sentinel: every element of the run is popped, then the
    sentinel, which lowers [depth] by one.  [levels] is the number of
    sentinels that are popped before [depth] turns negative. *)
Fixpoint until_sentinel (wl : list string) : list string * list string :=
  match wl with
  | [] => ([], [])
  | cur :: rest =>
      if String.eqb cur SENTINEL then ([], rest)
      else let '(run, after) := until_sentinel rest in (cur :: run, after)
  end.

Fixpoint loop_fuel (levels : nat) (lks : list LinkData) (wl : list string) : nat :=
  match levels with
  | O => O
  | S levels' =>
      let '(run, after) := until_sentinel wl in
      List.length run + 1
      + loop_fuel levels' lks (after ++ flat_map (pushed lks) run ++ [SENTINEL])
  end.

(** The state [levels] levels later. *)
Fixpoint after_levels (levels : nat) (lks : list LinkData) (st : bfs_state)
    : bfs_state :=
  match levels with
  | O => st
  | S levels' =>
      let '(run, after) := until_sentinel (st_wl st) in
      after_levels levels' lks
        (mkState (st_depth st - 1)
                 (after ++ flat_map (pushed lks) run ++ [SENTINEL])
                 (Set_addAll String.eqb (st_neighbourhood st) run))
  end.

(** The branch [if (depth >= 0) { while ... }] run to its end. *)
Definition bounded (lks : list LinkData) (slug : SimpleSlug) (d : Z)
    : option (list SimpleSlug) :=
  option_map st_neighbourhood
    (while_loop (loop_fuel (Z.to_nat (d + 1)) lks [slug; SENTINEL]) lks
                (initial slug d)).

(** The branch [else]: every key of the index, then every tag node. *)
Definition unbounded (data : ContentIndex) (cfg : Config) : list SimpleSlug :=
  let nb := Set_addAll String.eqb [] (map (fun e => simplifySlug (fst e)) data) in
  if showTags cfg then Set_addAll String.eqb nb (tagNodes data cfg) else nb.

(** The set [neighbourhood] after lines 80-99.  The loop always ends within
    [loop_fuel] iterations ([while_loop_ends] below), so the last case
    never arises.  (From [2 ^ 54] on the loop of JavaScript does not end,
    see [while_loop64]: there the script computes no set at all.) *)
Definition neighbourhood (data : ContentIndex) (cfg : Config)
    (slug : SimpleSlug) : list SimpleSlug :=
  if (0 <=? depth cfg)%Z then
    match bounded (fullLinks data cfg) slug (depth cfg) with
    | Some nb => nb
    | None => []
    end
  else unbounded data cfg.

(** *** Result filtering (lines 101-111, again at 593-603) *)

Definition node_of (data : ContentIndex) (url : SimpleSlug) : NodeData :=
  let details := lookup data url in
  let txt :=
    if startsWith url "tags/" then ("#" ++ substring_from 5 url)%string
    else match details with Some d => title d | None => url end in
  mkNode url txt (match details with Some d => tags d | None => [] end).

Definition rendered (nb : list SimpleSlug) (l : LinkData) : bool :=
  has nb (source l) && has nb (target l).

End GraphBuilder.

Module GraphData.
Record t := mk {
  nodes : list NodeData;
  links : list LinkData
}.
End GraphData.

Section Rendering.
Variable simplifySlug : FullSlug -> SimpleSlug.

Definition graphData (data : ContentIndex) (cfg : Config) (slug : SimpleSlug)
    : GraphData.t :=
  let nb := neighbourhood simplifySlug data cfg slug in
  GraphData.mk (map (node_of data) nb)
               (filter (rendered nb) (fullLinks simplifySlug data cfg)).

End Rendering.

(** ** JSON values and the visited-page store (lines 17-26) *)

#[warnings="-register-all"] Inductive json :=
| JNull
| JBool (b : bool)
| JNumber (value : PrimFloat.float)
| JString (s : string)
| JArray (elements : list json)
| JObject (members : list (string * json)).

Inductive error := SyntaxError | TypeError.

Inductive outcome (A : Type) :=
| Returned (a : A)
| Thrown (e : error).
Arguments Returned {A} a.
Arguments Thrown {A} e.

(** The comparison a [Set] makes.  Arrays and objects are compared by
    identity, and [JSON.parse] makes a fresh one each time: two of them are
    never the same value.  Numbers are compared as binary64 values, [+0]
    and [-0] being the same and NaN the same as itself. *)
Definition sameValueZero (a b : json) : bool :=
  match a, b with
  | JNull, JNull => true
  | JBool x, JBool y => Bool.eqb x y
  | JNumber x, JNumber y =>
      PrimFloat.eqb x y || PrimFloat.is_nan x && PrimFloat.is_nan y
  | JString x, JString y => String.eqb x y
  | _, _ => false
  end.

(** A string is held in UTF-8 (a surrogate that stands alone as the three
    bytes of its code unit): a byte [10xxxxxx] continues the code point
    of the byte before it. *)
Definition is_continuation (c : ascii) : bool :=
  let n := nat_of_ascii c in ((128 <=? n) && (n <? 192))%nat.

Fixpoint code_points (cs : list ascii) : list (list ascii) :=
  match cs with
  | [] => []
  | c :: rest =>
      match code_points rest with
      | p :: ps =>
          match p with
          | r :: _ =>
              if is_continuation r then (c :: p) :: ps else [c] :: p :: ps
          | [] => [c] :: p :: ps
          end
      | [] => [[c]]
      end
  end.

(** [[...s]] for a string [s], one element per code point. *)
Definition characters (s : string) : list json :=
  map (fun p => JString (string_of_list_ascii p))
      (code_points (list_ascii_of_string s)).

(** The value [Set.prototype.add] keeps: [+0] for [-0]. *)
Definition kept (v : json) : json :=
  match v with
  | JNumber x => if PrimFloat.is_zero x then JNumber PrimFloat.zero else v
  | _ => v
  end.

(** [new Set(v)]: [null] gives the empty set, an array or a string is
    iterated, anything else is not iterable. *)
Definition Set_of_json (v : json) : outcome (list json) :=
  match v with
  | JNull => Returned []
  | JArray l => Returned (new_Set sameValueZero (map kept l))
  | JString s => Returned (new_Set sameValueZero (characters s))
  | JBool _ | JNumber _ | JObject _ => Thrown TypeError
  end.

Section VisitedStore.
(** [JSON.parse] ([None] when it throws a SyntaxError) and
    [JSON.stringify] of the host. *)
Variable JSON_parse : string -> option json.
Variable JSON_stringify : json -> string.

(** The state of [localStorage] under the key ["graph-visited"]:
    [None] when the key is absent ([getItem] returns [null]). *)
Definition Storage := option string.

Definition getVisited (store : Storage) : outcome (list json) :=
  match JSON_parse (match store with Some s => s | None => "[]" end) with
  | None => Thrown SyntaxError
  | Some v => Set_of_json v
  end.

(** Returns the store after [setItem]. *)
Definition addToVisited (slug : SimpleSlug) (store : Storage) : outcome Storage :=
  match getVisited store with
  | Thrown e => Thrown e
  | Returned visited =>
      Returned (Some (JSON_stringify
                        (JArray (Set_add sameValueZero visited (JString slug)))))
  end.
End VisitedStore.

(** ** A reference JSON codec

    A reading of the JSON grammar that stands for the host's [JSON.parse]
    and [JSON.stringify] where an example has to be run.  A number token
    is read as the binary64 nearest to it and written as Number::toString
    writes it; an escape [\uXXXX] above 127 is stored in UTF-8, the two
    escapes of a surrogate pair as one code point. *)

Module JSONRef.

Definition dquote : ascii := ascii_of_nat 34.
Definition backslash : ascii := ascii_of_nat 92.

Definition is_ws (c : ascii) : bool :=
  let n := nat_of_ascii c in
  Nat.eqb n 32 || Nat.eqb n 9 || Nat.eqb n 10 || Nat.eqb n 13.

Fixpoint skip_ws (cs : list ascii) : list ascii :=
  match cs with
  | c :: rest => if is_ws c then skip_ws rest else cs
  | [] => []
  end.

Definition is_digit (c : ascii) : bool :=
  let n := nat_of_ascii c in ((48 <=? n) && (n <=? 57))%nat.

Fixpoint take_digits (cs : list ascii) : list ascii * list ascii :=
  match cs with
  | c :: rest =>
      if is_digit c then let '(ds, r) := take_digits rest in (c :: ds, r)
      else ([], cs)
  | [] => ([], [])
  end.

(** [cs] without the prefix [lit], when it starts with it. *)
Fixpoint expect (lit cs : list ascii) : option (list ascii) :=
  match lit, cs with
  | [], _ => Some cs
  | a :: lit', c :: cs' => if Ascii.eqb a c then expect lit' cs' else None
  | _ :: _, [] => None
  end.

Fixpoint digits_value (ds : list ascii) (acc : Z) : Z :=
  match ds with
  | [] => acc
  | c :: rest =>
      digits_value rest (10 * acc + (Z.of_nat (nat_of_ascii c) - 48))%Z
  end.

(** [n / d < 2 ^ e] and [10 ^ p <= n / d], for [0 <= n] and [0 < d]. *)
Definition below_pow2 (n d e : Z) : bool :=
  if (0 <=? e)%Z then (n <? d * 2 ^ e)%Z else (n * 2 ^ (- e) <? d)%Z.

Definition from_pow10 (n d p : Z) : bool :=
  if (0 <=? p)%Z then (d * 10 ^ p <=? n)%Z else (d <=? n * 10 ^ (- p))%Z.

(** The quotient of the multiple of [den] nearest to [num]; of two nearest
    the even quotient. *)
Definition nearest_even (num den : Z) : Z :=
  let q := (num / den)%Z in
  let r := (num mod den)%Z in
  if (2 * r <? den)%Z then q
  else if (den <? 2 * r)%Z then (q + 1)%Z
  else if Z.even q then q else (q + 1)%Z.

(** The Number value of the fraction [n / d], for [0 <= n] and [0 < d]:
    the binary64 nearest to it, of two nearest the one with the even
    significand, and infinity from [2 ^ 1024 - 2 ^ 970] on. *)
Definition number_of_ratio (n d : Z) : PrimFloat.float :=
  if (n =? 0)%Z then PrimFloat.zero
  else
    let e0 := (Z.log2 n - Z.log2 d)%Z in
    let e := if below_pow2 n d e0 then (e0 - 1)%Z else e0 in
    let ex := Z.max (e - 52) (-1074) in
    let q := if (ex <? 0)%Z then nearest_even (n * 2 ^ (- ex)) d
             else nearest_even n (d * 2 ^ ex) in
    FloatOps.Z.ldexp (PrimFloat.of_uint63 (Uint63.of_Z q)) ex.

(** [s * 10 ^ t] as a fraction. *)
Definition scaled (s t : Z) : Z * Z :=
  if (0 <=? t)%Z then (s * 10 ^ t, 1)%Z else (s, 10 ^ (- t))%Z.

Definition number_of_decimal (s t : Z) : PrimFloat.float :=
  let '(n, d) := scaled s t in number_of_ratio n d.

Definition parse_number (cs : list ascii)
    : option (PrimFloat.float * list ascii) :=
  let '(negative, r0) :=
    match cs with
    | c :: r => if Ascii.eqb c "-" then (true, r) else (false, cs)
    | [] => (false, [])
    end in
  let int_part :=
    match r0 with
    | c :: r =>
        if Ascii.eqb c "0" then Some ([c], r)
        else if is_digit c then Some (take_digits r0)
        else None
    | [] => None
    end in
  match int_part with
  | None => None
  | Some (ds, r1) =>
      let frac :=
        match r1 with
        | c :: r =>
            if Ascii.eqb c "." then
              match take_digits r with
              | ([], _) => None
              | (fs, r') => Some (fs, r')
              end
            else Some ([], r1)
        | [] => Some ([], [])
        end in
      match frac with
      | None => None
      | Some (fs, r2) =>
          let expo :=
            match r2 with
            | c :: r =>
                if Ascii.eqb c "e" || Ascii.eqb c "E" then
                  let '(minus, r') :=
                    match r with
                    | sg :: r' =>
                        if Ascii.eqb sg "+" then (false, r')
                        else if Ascii.eqb sg "-" then (true, r')
                        else (false, r)
                    | [] => (false, [])
                    end in
                  match take_digits r' with
                  | ([], _) => None
                  | (es, r'') =>
                      Some (if minus then (- digits_value es 0)%Z
                            else digits_value es 0, r'')
                  end
                else Some (0%Z, r2)
            | [] => Some (0%Z, [])
            end in
          match expo with
          | None => None
          | Some (e, r3) =>
              let x := number_of_decimal (digits_value (ds ++ fs) 0)
                                         (e - Z.of_nat (List.length fs)) in
              Some (if negative then PrimFloat.opp x else x, r3)
          end
      end
  end.

Definition hex_value (c : ascii) : option N :=
  let n := N_of_ascii c in
  if ((48 <=? n) && (n <=? 57))%N then Some (n - 48)%N
  else if ((97 <=? n) && (n <=? 102))%N then Some (n - 87)%N
  else if ((65 <=? n) && (n <=? 70))%N then Some (n - 55)%N
  else None.

Definition utf8 (code : N) : list ascii :=
  if (code <? 128)%N then [ascii_of_N code]
  else if (code <? 2048)%N then
    [ascii_of_N (192 + code / 64); ascii_of_N (128 + code mod 64)]
  else if (code <? 65536)%N then
    [ascii_of_N (224 + code / 4096);
     ascii_of_N (128 + (code / 64) mod 64);
     ascii_of_N (128 + code mod 64)]
  else
    [ascii_of_N (240 + code / 262144);
     ascii_of_N (128 + (code / 4096) mod 64);
     ascii_of_N (128 + (code / 64) mod 64);
     ascii_of_N (128 + code mod 64)].

(** The code unit held in the three bytes [237; b; c], a surrogate when
    [160 <= b]. *)
Definition code_unit (b c : ascii) : N :=
  (53248 + (N_of_ascii b - 128) * 64 + (N_of_ascii c - 128))%N.

Definition is_surrogate (a b : ascii) (low : bool) : bool :=
  let n := N_of_ascii b in
  (N_of_ascii a =? 237)%N
  && (if low then (176 <=? n) && (n <? 192) else (160 <=? n) && (n <? 176))%N.

(** A high surrogate followed by a low one is one code point. *)
Fixpoint join_surrogates (cs : list ascii) : list ascii :=
  match cs with
  | [] => []
  | a :: tl =>
      match tl with
      | b :: c :: d :: e :: f :: rest =>
          if is_surrogate a b false && is_surrogate d e true then
            utf8 (65536 + (code_unit b c - 55296) * 1024
                  + (code_unit e f - 56320))%N
            ++ join_surrogates rest
          else a :: join_surrogates tl
      | _ => a :: join_surrogates tl
      end
  end.

Definition string_of (cs : list ascii) : string := string_of_list_ascii cs.

(** The characters of a string literal after its opening quote. *)
Fixpoint parse_chars (cs : list ascii) (acc : list ascii)
    : option (string * list ascii) :=
  match cs with
  | [] => None
  | c :: rest =>
      if Ascii.eqb c dquote then Some (string_of (join_surrogates acc), rest)
      else if Ascii.eqb c backslash then
        match rest with
        | [] => None
        | e :: rest' =>
            if Ascii.eqb e dquote || Ascii.eqb e backslash || Ascii.eqb e "/"
            then parse_chars rest' (acc ++ [e])
            else if Ascii.eqb e "b" then parse_chars rest' (acc ++ [ascii_of_nat 8])
            else if Ascii.eqb e "f" then parse_chars rest' (acc ++ [ascii_of_nat 12])
            else if Ascii.eqb e "n" then parse_chars rest' (acc ++ [ascii_of_nat 10])
            else if Ascii.eqb e "r" then parse_chars rest' (acc ++ [ascii_of_nat 13])
            else if Ascii.eqb e "t" then parse_chars rest' (acc ++ [ascii_of_nat 9])
            else if Ascii.eqb e "u" then
              match rest' with
              | h1 :: h2 :: h3 :: h4 :: rest'' =>
                  match hex_value h1, hex_value h2, hex_value h3, hex_value h4 with
                  | Some a, Some b, Some c', Some d =>
                      parse_chars rest''
                        (acc ++ utf8 (a * 4096 + b * 256 + c' * 16 + d)%N)
                  | _, _, _, _ => None
                  end
              | _ => None
              end
            else None
        end
      else if (nat_of_ascii c <? 32)%nat then None
      else parse_chars rest (acc ++ [c])
  end.

Section Composite.
Variable parse_value : list ascii -> option (json * list ascii).

(** The elements of an array after its first bracket, which is not
    followed by the closing one. *)
Fixpoint parse_elements (n : nat) (cs : list ascii) (acc : list json)
    : option (list json * list ascii) :=
  match n with
  | O => None
  | S n' =>
      match parse_value cs with
      | None => None
      | Some (v, rest) =>
          match skip_ws rest with
          | c :: rest' =>
              if Ascii.eqb c "," then parse_elements n' rest' (acc ++ [v])
              else if Ascii.eqb c "]" then Some (acc ++ [v], rest')
              else None
          | [] => None
          end
      end
  end.

Fixpoint parse_members (n : nat) (cs : list ascii)
    (acc : list (string * json))
    : option (list (string * json) * list ascii) :=
  match n with
  | O => None
  | S n' =>
      match skip_ws cs with
      | q :: rest =>
          if Ascii.eqb q dquote then
            match parse_chars rest [] with
            | None => None
            | Some (key, rest1) =>
                match skip_ws rest1 with
                | c :: rest2 =>
                    if Ascii.eqb c ":" then
                      match parse_value rest2 with
                      | None => None
                      | Some (v, rest3) =>
                          match skip_ws rest3 with
                          | c' :: rest4 =>
                              if Ascii.eqb c' ","
                              then parse_members n' rest4 (acc ++ [(key, v)])
                              else if Ascii.eqb c' "}"
                              then Some (acc ++ [(key, v)], rest4)
                              else None
                          | [] => None
                          end
                      end
                    else None
                | [] => None
                end
            end
          else None
      | [] => None
      end
  end.
End Composite.

Fixpoint parse_value (fuel : nat) (cs : list ascii)
    : option (json * list ascii) :=
  match fuel with
  | O => None
  | S fuel' =>
      match skip_ws cs with
      | [] => None
      | c :: rest =>
          if Ascii.eqb c "n" then
            option_map (fun r => (JNull, r))
                       (expect (list_ascii_of_string "ull") rest)
          else if Ascii.eqb c "t" then
            option_map (fun r => (JBool true, r))
                       (expect (list_ascii_of_string "rue") rest)
          else if Ascii.eqb c "f" then
            option_map (fun r => (JBool false, r))
                       (expect (list_ascii_of_string "alse") rest)
          else if Ascii.eqb c dquote then
            option_map (fun p => (JString (fst p), snd p))
                       (parse_chars rest [])
          else if Ascii.eqb c "[" then
            match skip_ws rest with
            | c' :: rest' =>
                if Ascii.eqb c' "]" then Some (JArray [], rest')
                else option_map (fun p => (JArray (fst p), snd p))
                       (parse_elements (parse_value fuel') fuel' rest [])
            | [] => None
            end
          else if Ascii.eqb c "{" then
            match skip_ws rest with
            | c' :: rest' =>
                if Ascii.eqb c' "}" then Some (JObject [], rest')
                else option_map (fun p => (JObject (fst p), snd p))
                       (parse_members (parse_value fuel') fuel' rest [])
            | [] => None
            end
          else
            option_map (fun p => (JNumber (fst p), snd p))
                       (parse_number (c :: rest))
      end
  end.

Definition parse (s : string) : option json :=
  let cs := list_ascii_of_string s in
  match parse_value (S (List.length cs)) cs with
  | Some (v, rest) =>
      match skip_ws rest with
      | [] => Some v
      | _ :: _ => None
      end
  | None => None
  end.

Definition hex_digit (n : N) : ascii :=
  if (n <? 10)%N then ascii_of_N (48 + n) else ascii_of_N (87 + n).

Definition quote_char (c : ascii) : list ascii :=
  let n := nat_of_ascii c in
  if Ascii.eqb c dquote then [backslash; dquote]
  else if Ascii.eqb c backslash then [backslash; backslash]
  else if Nat.eqb n 8 then [backslash; "b"%char]
  else if Nat.eqb n 12 then [backslash; "f"%char]
  else if Nat.eqb n 10 then [backslash; "n"%char]
  else if Nat.eqb n 13 then [backslash; "r"%char]
  else if Nat.eqb n 9 then [backslash; "t"%char]
  else if (n <? 32)%nat then
    [backslash; "u"%char; "0"%char; "0"%char;
     hex_digit (N.of_nat n / 16); hex_digit (N.of_nat n mod 16)]
  else [c].

(** A surrogate that stands alone is written as an escape. *)
Fixpoint quote_chars (cs : list ascii) : list ascii :=
  match cs with
  | [] => []
  | a :: tl =>
      match tl with
      | b :: c :: rest =>
          if is_surrogate a b false || is_surrogate a b true then
            let u := code_unit b c in
            [backslash; "u"%char; "d"%char; hex_digit ((u / 256) mod 16);
             hex_digit ((u / 16) mod 16); hex_digit (u mod 16)]
            ++ quote_chars rest
          else quote_char a ++ quote_chars tl
      | _ => quote_char a ++ quote_chars tl
      end
  end.

Definition quote (s : string) : list ascii :=
  dquote :: quote_chars (list_ascii_of_string s) ++ [dquote].

(** The finite number [x] above zero as a fraction. *)
Definition ratio_of_number (x : PrimFloat.float) : Z * Z :=
  match FloatOps.Prim2SF x with
  | SpecFloat.S754_finite _ m e =>
      if (0 <=? e)%Z then (Z.pos m * 2 ^ e, 1)%Z else (Z.pos m, 2 ^ (- e))%Z
  | _ => (0, 1)%Z
  end.

(** [p] with [10 ^ (p - 1) <= n / d < 10 ^ p]. *)
Definition magnitude (n d : Z) : Z :=
  let l := (Z.log2 n - Z.log2 d)%Z in
  let lo := ((l - 1) * 30103 / 100000 - 1)%Z in
  if from_pow10 n d (lo + 3) then (lo + 4)%Z
  else if from_pow10 n d (lo + 2) then (lo + 3)%Z
  else if from_pow10 n d (lo + 1) then (lo + 2)%Z
  else (lo + 1)%Z.

Definition reads_as (x : PrimFloat.float) (s t : Z) : bool :=
  PrimFloat.eqb (number_of_decimal s t) x.

(** The digits [s], their number [k] and the exponent [n] of
    Number::toString for [x = n / d] of magnitude [p]: [k] is the least
    number of digits such that some [s * 10 ^ (n - k)] is read as [x], and
    [s] the one nearest to [x] of those that are. *)
Fixpoint shortest (fuel : nat) (x : PrimFloat.float) (n d p k : Z)
    : Z * Z * Z :=
  let t := (p - k)%Z in
  let '(tn, td) := scaled 1 t in
  let lo := ((n * td) / (d * tn))%Z in
  let pick s := if (s =? 10 ^ k)%Z then (1, 1, p + 1)%Z else (s, k, p) in
  match fuel with
  | O => pick (nearest_even (n * td) (d * tn))
  | S fuel' =>
      match reads_as x lo t, reads_as x (lo + 1) t with
      | true, true => pick (nearest_even (n * td) (d * tn))
      | true, false => pick lo
      | false, true => pick (lo + 1)%Z
      | false, false => shortest fuel' x n d p (k + 1)
      end
  end.

Fixpoint decimal (fuel : nat) (z : Z) (acc : list ascii) : list ascii :=
  let acc' := ascii_of_nat (48 + Z.to_nat (z mod 10)) :: acc in
  match fuel with
  | O => acc'
  | S fuel' => if (z <? 10)%Z then acc' else decimal fuel' (z / 10) acc'
  end.

Definition digits (z : Z) : list ascii := decimal (Z.to_nat (Z.log2 z)) z [].

Definition zeros (n : Z) : list ascii := repeat "0"%char (Z.to_nat n).

(** Number::toString(x) for a finite [x] above zero. *)
Definition positive_to_string (x : PrimFloat.float) : list ascii :=
  let '(n, d) := ratio_of_number x in
  let '(s, k, p) := shortest 16 x n d (magnitude n d) 1 in
  let ds := digits s in
  if ((k <=? p) && (p <=? 21))%Z then ds ++ zeros (p - k)
  else if ((0 <? p) && (p <=? 21))%Z then
    firstn (Z.to_nat p) ds ++ "."%char :: skipn (Z.to_nat p) ds
  else if ((-6 <? p) && (p <=? 0))%Z then
    "0"%char :: "."%char :: zeros (- p) ++ ds
  else
    let e := (p - 1)%Z in
    let mantissa := match ds with
                    | c :: (_ :: _) as rest => c :: "."%char :: rest
                    | _ => ds
                    end in
    mantissa ++ "e"%char :: (if (e <? 0)%Z then "-"%char else "+"%char)
             :: digits (Z.abs e).

(** What [JSON.stringify] writes for a number: [null] when it is not
    finite. *)
Definition number_to_string (x : PrimFloat.float) : list ascii :=
  if PrimFloat.is_nan x || PrimFloat.is_infinity x
  then list_ascii_of_string "null"
  else if PrimFloat.is_zero x then ["0"%char]
  else if PrimFloat.get_sign x
  then "-"%char :: positive_to_string (PrimFloat.abs x)
  else positive_to_string x.

Fixpoint join (sep : list ascii) (parts : list (list ascii)) : list ascii :=
  match parts with
  | [] => []
  | [p] => p
  | p :: rest => p ++ sep ++ join sep rest
  end.

Fixpoint stringify_chars (v : json) : list ascii :=
  match v with
  | JNull => list_ascii_of_string "null"
  | JBool true => list_ascii_of_string "true"
  | JBool false => list_ascii_of_string "false"
  | JNumber x => number_to_string x
  | JString s => quote s
  | JArray l => "["%char :: join [","%char] (map stringify_chars l) ++ ["]"%char]
  | JObject m =>
      "{"%char
      :: join [","%char]
           (map (fun kv => quote (fst kv) ++ ":"%char :: stringify_chars (snd kv)) m)
      ++ ["}"%char]
  end.

Definition stringify (v : json) : string := string_of (stringify_chars v).

End JSONRef.

(** ** The link force of d3

    [d3.forceLink(graphData.links)] is not part of the script.  Its
    initialisation replaces, in every link object it is given, a [source] or
    [target] that is not an object by the node with that identifier, and
    throws when there is none.  [links.filter] makes a new array of the
    same objects, so the objects of [graphData.links] are objects of
    [links]: the array [links] is modelled as the store of the link objects
    and [graphData.links] as the positions it shares with it. *)

Inductive endpoint :=
| Slug (s : SimpleSlug)
| Node (n : NodeData).

Record LinkObject := mkObject {
  obj_source : endpoint;
  obj_target : endpoint
}.

Definition object_of (l : LinkData) : LinkObject :=
  mkObject (Slug (source l)) (Slug (target l)).

(** [e.id]: [undefined] on a string. *)
Definition endpoint_id (e : endpoint) : option SimpleSlug :=
  match e with
  | Slug _ => None
  | Node n => Some (id n)
  end.

(** [nodeById.get(nodeId)] for [nodeById = new Map(nodes.map(d => [d.id, d]))]:
    of two nodes with one identifier the later one is kept. *)
Fixpoint find (nodes : list NodeData) (nodeId : SimpleSlug) : option NodeData :=
  match nodes with
  | [] => None
  | n :: rest =>
      match find rest nodeId with
      | Some m => Some m
      | None => if String.eqb (id n) nodeId then Some n else None
      end
  end.

Definition resolve (nodes : list NodeData) (e : endpoint) : option endpoint :=
  match e with
  | Slug s => option_map Node (find nodes s)
  | Node n => Some (Node n)
  end.

Fixpoint update {A : Type} (l : list A) (i : nat) (x : A) : list A :=
  match l, i with
  | [], _ => []
  | _ :: t, O => x :: t
  | h :: t, S i' => h :: update t i' x
  end.

(** What the initialisation does to one link object; [None] when d3 throws. *)
Definition resolve_object (nodes : list NodeData) (o : LinkObject)
    : option LinkObject :=
  match resolve nodes (obj_source o), resolve nodes (obj_target o) with
  | Some s, Some t => Some (mkObject s t)
  | _, _ => None
  end.

(** Initialisation of the link force over the objects at [refs]. *)
Fixpoint forceLink_initialize (nodes : list NodeData) (store : list LinkObject)
    (refs : list nat) : option (list LinkObject) :=
  match refs with
  | [] => Some store
  | r :: rest =>
      match nth_error store r with
      | None => None
      | Some o =>
          match resolve_object nodes o with
          | Some o' => forceLink_initialize nodes (update store r o') rest
          | None => None
          end
      end
  end.

(** The object of an edge once the link force is initialised: resolved when
    the edge is rendered, as it was pushed otherwise. *)
Definition linked (nodes : list NodeData) (nb : list SimpleSlug)
    (l : LinkData) : LinkObject :=
  if rendered nb l then
    match resolve_object nodes (object_of l) with
    | Some o => o
    | None => object_of l
    end
  else object_of l.

(** The positions in [links] of the objects that [links.filter] keeps. *)
Definition rendered_refs (nb : list SimpleSlug) (lks : list LinkData) : list nat :=
  filter (fun i => match nth_error lks i with
                   | Some l => rendered nb l
                   | None => false
                   end)
         (seq 0 (List.length lks)).

(** [x === d.id] for [x] a string or [undefined] *)
Definition is_id (x : option SimpleSlug) (d : NodeData) : bool :=
  match x with
  | Some s => String.eqb s (id d)
  | None => false
  end.

(** [links.filter((l) => l.source.id === d.id || l.target.id === d.id).length]
    (line 187), read after the link force was initialised. *)
Definition numLinks (store : list LinkObject) (d : NodeData) : nat :=
  List.length
    (filter (fun l => is_id (endpoint_id (obj_source l)) d
                      || is_id (endpoint_id (obj_target l)) d) store).

(** [2 + Math.sqrt(numLinks)], with the square root of the reals. *)
Definition nodeRadius (store : list LinkObject) (d : NodeData) : R :=
  (2 + sqrt (INR (numLinks store d)))%R.

(** The number of edges of a list that touch an identifier. *)
Definition incident (lks : list LinkData) (x : SimpleSlug) : nat :=
  List.length
    (filter (fun l => String.eqb (source l) x || String.eqb (target l) x) lks).

(** ** What the renderers draw *)

Inductive Color := secondary | tertiary | gray.

(** [color] (lines 149-158) *)
Definition color (slug : SimpleSlug) (visited : list json) (d : NodeData) : Color :=
  if String.eqb (id d) slug then secondary
  else if Set_has sameValueZero visited (JString (id d))
          || startsWith (id d) "tags/" then tertiary
  else gray.

Record Circle := mkCircle {
  circle_id : SimpleSlug;
  circle_r : R;
  circle_fill : Color
}.

Record Label := mkLabel {
  label_text : string;
  label_dy : R
}.

Record Drawing := mkDrawing {
  lines : list LinkData;
  circles : list Circle;
  labels : list Label
}.

(** A row of [dataRadial]. *)
Record RadialRow := mkRow {
  row_id : option string;
  row_parentId : string;
  row_details : ContentDetails
}.

(** [key.split("/")] *)
Fixpoint split_slash (s : string) : list string :=
  match s with
  | EmptyString => [EmptyString]
  | String c rest =>
      if Ascii.eqb c "/" then EmptyString :: split_slash rest
      else match split_slash rest with
           | seg :: segs => String c seg :: segs
           | [] => [String c EmptyString]
           end
  end.

(** [arr[i]] for an integer [i]: [undefined] out of range. *)
Definition at_index (arr : list string) (i : Z) : option string :=
  if (i <? 0)%Z then None else nth_error arr (Z.to_nat i).

Definition is_string (x : option string) (s : string) : bool :=
  match x with
  | Some y => String.eqb y s
  | None => false
  end.

(** The body of [for (const key in data)] (lines 327-335, again at 439-446). *)
Definition radial_row (key : FullSlug) (details : ContentDetails)
    : option RadialRow :=
  let crumb := split_slash key in
  let crumbL := Z.of_nat (List.length crumb) in
  let parent := at_index crumb (crumbL - 2) in
  let name := at_index crumb (crumbL - 1) in
  let '(name, parent) :=
    if is_string name "index" && (1 <? crumbL)%Z
    then (parent, at_index crumb (crumbL - 3))
    else (name, parent) in
  if negb (is_string parent "tags") then
    Some (mkRow name
                (match parent with
                 | None => if is_string name "index" then EmptyString else "index"
                 | Some p => p
                 end)
                details)
  else None.

Fixpoint dataRadial (data : ContentIndex) : list RadialRow :=
  match data with
  | [] => []
  | (key, details) :: rest =>
      match radial_row key details with
      | Some row => row :: dataRadial rest
      | None => dataRadial rest
      end
  end.

(** *** [d3.stratify] (lines 336 and 447)

    [d3.stratify()(dataRadial)] is d3 code.  It registers every row that
    has a non-empty [id] under that key, a key given twice being marked
    ambiguous; then, row by row, it hangs the row under the node of its
    [parentId], throwing when there is none or when the key is ambiguous,
    and takes a row without [parentId] as the root, throwing at a second
    one; it throws when there is no root, and when some row is not reached
    from the root.  Nodes are the positions of their rows in the table. *)

Inductive StratifyError :=
| missing (parentId : string)
| ambiguous (parentId : string)
| multiple_roots
| no_root
| cycle.

(** The key a row is registered under: [d.id != null && (d.id += "")]. *)
Definition row_key (row : RadialRow) : option string :=
  match row_id row with
  | Some s => if String.eqb s EmptyString then None else Some s
  | None => None
  end.

(** The parent key of a row, none when [parentId] is the empty string. *)
Definition row_parent (row : RadialRow) : option string :=
  if String.eqb (row_parentId row) EmptyString then None
  else Some (row_parentId row).

(** The rows registered under [key]. *)
Definition holders (rows : list RadialRow) (key : string) : list nat :=
  filter (fun i => match nth_error rows i with
                   | Some row => is_string (row_key row) key
                   | None => false
                   end)
         (seq 0 (List.length rows)).

(** The second loop over the rows [todo], the first of which is at position
    [i]; [root] is the root found so far. *)
Fixpoint link_rows (rows todo : list RadialRow) (i : nat) (root : option nat)
    : StratifyError + option nat :=
  match todo with
  | [] => inr root
  | row :: rest =>
      match row_parent row with
      | Some key =>
          match holders rows key with
          | [] => inl (missing key)
          | [_] => link_rows rows rest (S i) root
          | _ :: _ :: _ => inl (ambiguous key)
          end
      | None =>
          match root with
          | Some _ => inl multiple_roots
          | None => link_rows rows rest (S i) (Some i)
          end
      end
  end.

(** [node.parent] once the rows are linked. *)
Definition parent_of (rows : list RadialRow) (j : nat) : option nat :=
  match nth_error rows j with
  | Some row =>
      match row_parent row with
      | Some key =>
          match holders rows key with
          | [h] => Some h
          | _ => None
          end
      | None => None
      end
  | None => None
  end.

(** [node.children], in the order of the table. *)
Definition children (rows : list RadialRow) (i : nat) : list nat :=
  filter (fun j => match parent_of rows j with
                   | Some h => Nat.eqb h i
                   | None => false
                   end)
         (seq 0 (List.length rows)).

(** The nodes in the order [root.descendants()] and [root.each] visit
    them: level by level. *)
Fixpoint breadth_first (rows : list RadialRow) (fuel : nat) (level : list nat)
    : list nat :=
  match fuel with
  | O => []
  | S fuel' =>
      match level with
      | [] => []
      | _ :: _ =>
          level ++ breadth_first rows fuel' (flat_map (children rows) level)
      end
  end.

(** The node [k] links above [j]. *)
Fixpoint ancestor (rows : list RadialRow) (k : nat) (j : nat) : option nat :=
  match k with
  | O => Some j
  | S k' =>
      match parent_of rows j with
      | Some h => ancestor rows k' h
      | None => None
      end
  end.

(** [d3.stratify()(rows)]: the error thrown, or the nodes of the hierarchy
    in the order of [root.descendants()]. *)
Definition stratify (rows : list RadialRow) : StratifyError + list nat :=
  match link_rows rows rows 0 None with
  | inl e => inl e
  | inr None => inl no_root
  | inr (Some root) =>
      let reached := breadth_first rows (S (List.length rows)) [root] in
      if (List.length reached <? List.length rows)%nat then inl cycle
      else inr reached
  end.

(** What a radial renderer appends: a circle and a label per node of
    [root.descendants()], a path per link of [root.links()]. *)
Record RadialDrawing := mkRadial {
  radial_nodes : list RadialRow;
  radial_links : list (RadialRow * RadialRow)
}.

Definition rows_at (rows : list RadialRow) (nodes : list nat) : list RadialRow :=
  flat_map (fun i => match nth_error rows i with
                     | Some row => [row]
                     | None => []
                     end) nodes.

Definition links_at (rows : list RadialRow) (nodes : list nat)
    : list (RadialRow * RadialRow) :=
  flat_map (fun j => match parent_of rows j with
                     | Some h =>
                         match nth_error rows h, nth_error rows j with
                         | Some parent, Some child => [(parent, child)]
                         | _, _ => []
                         end
                     | None => []
                     end) nodes.

Definition radial_drawing (data : ContentIndex)
    : StratifyError + RadialDrawing :=
  let rows := dataRadial data in
  match stratify rows with
  | inl e => inl e
  | inr nodes => inr (mkRadial (rows_at rows nodes) (links_at rows nodes))
  end.

(** [if (id) dataTree.push({ name: id, title: title })] (lines 607-614);
    the empty string is the one falsy identifier. *)
Definition dataTree (g : GraphData.t) : list (string * string) :=
  map (fun d => (id d, text d))
      (filter (fun d => negb (String.eqb (id d) EmptyString)) (GraphData.nodes g)).

Section Renderers.
Variable simplifySlug : FullSlug -> SimpleSlug.

(** The force-directed renderer: the lines, circles and labels it
    appends, [None] when the link force throws. *)
Definition renderGraph (data : ContentIndex) (cfg : Config)
    (slug : SimpleSlug) (visited : list json) : option Drawing :=
  let lks := fullLinks simplifySlug data cfg in
  let nb := neighbourhood simplifySlug data cfg slug in
  let g := graphData simplifySlug data cfg slug in
  match forceLink_initialize (GraphData.nodes g) (map object_of lks)
                             (rendered_refs nb lks) with
  | None => None
  | Some store =>
      Some (mkDrawing
              (GraphData.links g)
              (map (fun d => mkCircle (id d) (nodeRadius store d)
                                      (color slug visited d))
                   (GraphData.nodes g))
              (map (fun d => mkLabel (text d) (- nodeRadius store d)%R)
                   (GraphData.nodes g)))
  end.

(** The horizontal tree: the children of the node ["Root"]. *)
Definition renderTreeGraph (data : ContentIndex) (cfg : Config)
    (slug : SimpleSlug) : list (string * string) :=
  dataTree (graphData simplifySlug data cfg slug).

(** The two radial renderers: the error [d3.stratify] throws on the table
    of the whole index, or the nodes and links of its hierarchy.  The
    cluster and the tidy layout place them differently and draw the same
    ones. *)
Definition renderRadialGraph (data : ContentIndex) (cfg : Config)
    (slug : SimpleSlug) : StratifyError + RadialDrawing :=
  radial_drawing data.

Definition renderRadialTidyGraph (data : ContentIndex) (cfg : Config)
    (slug : SimpleSlug) : StratifyError + RadialDrawing :=
  radial_drawing data.
End Renderers.

(** The force-directed drawing, written from [graphData] alone. *)
Definition drawing_of (g : GraphData.t) (slug : SimpleSlug)
    (visited : list json) : Drawing :=
  let r d := (2 + sqrt (INR (incident (GraphData.links g) (id d))))%R in
  mkDrawing (GraphData.links g)
            (map (fun d => mkCircle (id d) (r d) (color slug visited d))
                 (GraphData.nodes g))
            (map (fun d => mkLabel (text d) (- r d)%R) (GraphData.nodes g)).

(** ** Sets without repetition *)

Section Distinct.
Context {A : Type} (same : A -> A -> bool).

(** No element of [l] is the same value as an element of [seen] or as an
    earlier element of [l]. *)
Fixpoint distinct_from (seen l : list A) : Prop :=
  match l with
  | [] => True
  | x :: rest => Set_has same seen x = false /\ distinct_from (seen ++ [x]) rest
  end.

Definition distinct (s : list A) : Prop := distinct_from [] s.
End Distinct.

(** A stand-in for [simplifySlug] in the examples: it does to the keys used
    there what [simplifySlug] does, the page [index] becomes [/] and a
    slug without leading slash that does not end in [index] stays as it
    is. *)
Definition exampleSlug (s : FullSlug) : SimpleSlug :=
  if String.eqb s "index" then "/" else s.

(** ** Reachability in the undirected closure of an edge list *)

(** One edge traversal, in either direction. *)
Definition adjacent (lks : list LinkData) (a b : SimpleSlug) : Prop :=
  exists l, In l lks /\
    ((source l = a /\ target l = b) \/ (target l = a /\ source l = b)).

(** [walk lks k a b]: [b] is reached from [a] by exactly [k] traversals. *)
Inductive walk (lks : list LinkData) : nat -> SimpleSlug -> SimpleSlug -> Prop :=
| walk_here : forall a, walk lks 0 a a
| walk_edge : forall k a b c,
    adjacent lks a b -> walk lks k b c -> walk lks (S k) a c.

Definition reachable_within (lks : list LinkData) (n : nat)
    (a b : SimpleSlug) : Prop :=
  exists k, k <= n /\ walk lks k a b.

(** No endpoint of an edge is the string the queue uses as level marker. *)
Definition sentinel_free (lks : list LinkData) : Prop :=
  forallb (fun l => negb (String.eqb (source l) SENTINEL)
                    && negb (String.eqb (target l) SENTINEL)) lks = true.

(** ** Identifiers an edge list mentions *)

Definition endpoint_of (lks : list LinkData) (x : SimpleSlug) : Prop :=
  exists l, In l lks /\ (source l = x \/ target l = x).

(** ** Path segments *)

(** No character of [s] is a slash. *)
Fixpoint no_slash (s : string) : bool :=
  match s with
  | EmptyString => true
  | String c rest => negb (Ascii.eqb c "/") && no_slash rest
  end.

(** ** Repeated navigation (line 772)

    Every [nav] event runs the handler anew, and the handler starts with
    [addToVisited(slug)].  A call that throws ends that run before
    [setItem]: the store stays as it was. *)

Section Navigation.
Variable JSON_parse : string -> option json.
Variable JSON_stringify : json -> string.

(** The store one [nav] event leaves, and the error of [addToVisited] when
    it throws. *)
Definition nav_visit (slug : FullSlug) (store : Storage)
    : Storage * option error :=
  match addToVisited JSON_parse JSON_stringify slug store with
  | Thrown e => (store, Some e)
  | Returned store' => (store', None)
  end.

(** A sequence of [nav] events, each on the store the one before left. *)
Fixpoint nav_visits (slugs : list FullSlug) (store : Storage)
    : Storage * list (option error) :=
  match slugs with
  | [] => (store, [])
  | slug :: rest =>
      let '(store1, thrown) := nav_visit slug store in
      let '(store2, later) := nav_visits rest store1 in
      (store2, thrown :: later)
  end.
End Navigation.

(** ** Layout selection and the listeners of the icon (lines 776-802) *)

(** The layout flags of a [cfg] attribute. *)
Record Layout := mkLayout {
  radial : bool;
  tree : bool;
  tidy : bool
}.

(** The four renderers; as click handlers of the icon, [Force] stands for
    [renderGlobalGraph], [RadialCluster] for [renderGlobalRadialGraph] and
    [RadialTidy] for [renderGlobalRadialTidyGraph]. *)
Inductive Renderer := Force | RadialCluster | RadialTidy | HorizontalTree.

Definition Renderer_eqb (a b : Renderer) : bool :=
  match a, b with
  | Force, Force | RadialCluster, RadialCluster
  | RadialTidy, RadialTidy | HorizontalTree, HorizontalTree => true
  | _, _ => false
  end.

(** Lines 782-784: the renderer of the panel [graph-container]. *)
Definition inline_renderer (p : Layout) : Renderer :=
  if radial p then RadialCluster
  else if tree p then HorizontalTree
  else Force.

(** Lines 791-802: the handler the icon is given. *)
Definition global_handler (p : Layout) : Renderer :=
  if radial p then (if tidy p then RadialTidy else RadialCluster)
  else Force.

(** The click listeners of an element, in the order they were added. *)
Fixpoint removeEventListener (listeners : list Renderer) (h : Renderer)
    : list Renderer :=
  match listeners with
  | [] => []
  | x :: rest =>
      if Renderer_eqb x h then rest else x :: removeEventListener rest h
  end.

(** A listener that is already in the list is not added again. *)
Definition addEventListener (listeners : list Renderer) (h : Renderer)
    : list Renderer :=
  Set_add Renderer_eqb listeners h.

(** What one [nav] event does to the listeners of the icon. *)
Definition nav_icon (listeners : list Renderer) (p : Layout) : list Renderer :=
  addEventListener (removeEventListener listeners (global_handler p))
                   (global_handler p).

(** ** Content indexes of the examples *)

(** The chain [a -> b -> c], without tags. *)
Definition chain : ContentIndex :=
  [("a", mkDetails "A" (Some ["b"]) []);
   ("b", mkDetails "B" (Some ["c"]) []);
   ("c", mkDetails "C" None [])].

(** A page whose slug is the string the queue uses as level marker,
    between [a] and [b]. *)
Definition marked : ContentIndex :=
  [("a", mkDetails "A" (Some ["__SENTINEL"]) []);
   ("__SENTINEL", mkDetails "S" (Some ["b"]) []);
   ("b", mkDetails "B" None [])].

(** [a] carries the tag [foo] and links to [tags/foo], which is no page of
    the index, to [b] and to the missing page [zzz]. *)
Definition tagged : ContentIndex :=
  [("a", mkDetails "A" (Some ["tags/foo"; "b"; "zzz"]) ["foo"]);
   ("b", mkDetails "B" None ["foo"; "bar"])].

(** Two pages that share a tag and have no link. *)
Definition shared : ContentIndex :=
  [("a", mkDetails "A" None ["t"]);
   ("b", mkDetails "B" None ["t"])].

(** Two sites that differ in a page no link leads to. *)
Definition site1 : ContentIndex :=
  [("index", mkDetails "Home" None []);
   ("a", mkDetails "A" (Some ["b"]) []);
   ("b", mkDetails "B" None [])].

Definition site2 : ContentIndex :=
  site1 ++ [("notes/c", mkDetails "C" None [])].

(** A folder whose page comes before the root in the index. *)
Definition folders : ContentIndex :=
  [("docs/x", mkDetails "X" None []);
   ("index", mkDetails "Home" None []);
   ("docs/index", mkDetails "Docs" None [])].

Definition site3 : ContentIndex :=
  site1 ++ [("c", mkDetails "C" None [])].

(* ================================================================== *)
(** * Properties *)

(** ** Sets as lists *)

Section JSSetFacts.
Context {A : Type} (same : A -> A -> bool).

Lemma Set_add_keeps (s : list A) (x y : A) :
  In y s -> In y (Set_add same s x).
Proof.
  unfold Set_add. destruct (Set_has same s x); auto.
  intro H. apply in_or_app. now left.
Qed.

Lemma Set_addAll_keeps (l s : list A) (y : A) :
  In y s -> In y (Set_addAll same s l).
Proof.
  unfold Set_addAll. revert s.
  induction l as [|x l IH]; intros s H; simpl; auto.
  apply IH. now apply Set_add_keeps.
Qed.

Lemma Set_addAll_from (l s : list A) (y : A) :
  In y (Set_addAll same s l) -> In y s \/ In y l.
Proof.
  unfold Set_addAll. revert s.
  induction l as [|x l IH]; intros s H; simpl in *; auto.
  apply IH in H. destruct H as [H|H]; [|auto].
  unfold Set_add in H. destruct (Set_has same s x); [auto|].
  apply in_app_or in H. destruct H as [H|[<-|[]]]; auto.
Qed.
End JSSetFacts.

Lemma has_In (s : list string) (x : string) : has s x = true <-> In x s.
Proof.
  unfold has, Set_has. rewrite existsb_exists. split.
  - intros [y [Hy Heq]]. apply String.eqb_eq in Heq. now subst.
  - intro H. exists x. split; auto. apply String.eqb_refl.
Qed.

Lemma add_In (s : list string) (x y : string) :
  In y (add s x) <-> In y s \/ y = x.
Proof.
  unfold add, Set_add. fold (has s x).
  destruct (has s x) eqn:E.
  - apply has_In in E. split; [now left|]. intros [H| ->]; auto.
  - rewrite in_app_iff. simpl. intuition.
Qed.

Lemma addAll_In (l s : list string) (y : string) :
  In y (Set_addAll String.eqb s l) <-> In y s \/ In y l.
Proof.
  unfold Set_addAll. revert s.
  induction l as [|x l IH]; intros s; simpl.
  - tauto.
  - rewrite IH. fold (add s x). rewrite add_In. intuition.
Qed.

Lemma includes_In (arr : list string) (x : string) :
  includes arr x = true <-> In x arr.
Proof. exact (has_In arr x). Qed.

(** ** The traversal, level by level *)

Lemma until_sentinel_split (wl : list string) :
  In SENTINEL wl ->
  wl = fst (until_sentinel wl) ++ SENTINEL :: snd (until_sentinel wl)
  /\ ~ In SENTINEL (fst (until_sentinel wl)).
Proof.
  induction wl as [|cur rest IH]; simpl; [tauto|].
  intros H. destruct (String.eqb cur SENTINEL) eqn:E.
  - apply String.eqb_eq in E. subst. simpl. auto.
  - apply String.eqb_neq in E.
    destruct H as [H|H]; [congruence|].
    destruct (until_sentinel rest) as [run after]. simpl in *.
    destruct (IH H) as [Hs Hn]. split.
    + now rewrite <- Hs.
    + intros [F|F]; auto.
Qed.

(** Popping a run without sentinel and the sentinel that follows it. *)
Lemma while_loop_level (lks : list LinkData) (run : list string) :
  ~ In SENTINEL run ->
  forall (fuel : nat) (d : Z) (after : list string) (nb : list SimpleSlug),
    (0 <= d)%Z ->
    while_loop (List.length run + 1 + fuel) lks
               (mkState d (run ++ SENTINEL :: after) nb)
    = while_loop fuel lks
        (mkState (d - 1) (after ++ flat_map (pushed lks) run ++ [SENTINEL])
                 (Set_addAll String.eqb nb run)).
Proof.
  induction run as [|cur run IH]; intros Hn fuel d after nb Hd.
  - simpl List.length. simpl app at 1.
    replace (0 + 1 + fuel) with (S fuel) by lia.
    simpl while_loop at 1. unfold loop_cond. simpl.
    apply Z.leb_le in Hd. rewrite Hd. simpl.
    unfold loop_body. simpl. reflexivity.
  - simpl List.length.
    replace (S (List.length run) + 1 + fuel) with (S (List.length run + 1 + fuel)) by lia.
    simpl while_loop at 1. unfold loop_cond at 1. simpl.
    pose proof Hd as Hd'. apply Z.leb_le in Hd'. rewrite Hd'. simpl.
    unfold loop_body at 1. simpl.
    destruct (String.eqb cur SENTINEL) eqn:E.
    + apply String.eqb_eq in E. exfalso. apply Hn. now left.
    + rewrite <- app_assoc. simpl.
      rewrite IH; auto.
      * f_equal. f_equal. now rewrite <- !app_assoc.
      * intro F. apply Hn. now right.
Qed.


(** With a sentinel in the queue the loop ends, within [loop_fuel]
    iterations, in the state [after_levels] computes. *)
Lemma while_loop_levels (lks : list LinkData) (levels : nat) :
  forall st,
    In SENTINEL (st_wl st) ->
    Z.to_nat (st_depth st + 1) = levels ->
    while_loop (loop_fuel levels lks (st_wl st)) lks st
    = Some (after_levels levels lks st).
Proof.
  induction levels as [|levels IH]; intros [d wl nb] Hin Hd; simpl in *.
  - unfold loop_cond. simpl.
    replace (0 <=? d)%Z with false; [reflexivity|].
    symmetry. apply Z.leb_gt. lia.
  - destruct (until_sentinel_split wl Hin) as [Hsplit Hfree].
    destruct (until_sentinel wl) as [run after]. simpl in Hsplit, Hfree.
    rewrite Hsplit.
    rewrite while_loop_level by (auto; lia).
    apply (IH (mkState (d - 1) _ _)); simpl.
    + apply in_or_app. right. apply in_or_app. right. now left.
    + lia.
Qed.

Lemma while_loop_ends (lks : list LinkData) (slug : SimpleSlug) (d : Z) :
  while_loop (loop_fuel (Z.to_nat (d + 1)) lks [slug; SENTINEL]) lks
             (initial slug d)
  = Some (after_levels (Z.to_nat (d + 1)) lks (initial slug d)).
Proof.
  apply (while_loop_levels lks (Z.to_nat (d + 1)) (initial slug d)).
  - simpl. auto.
  - reflexivity.
Qed.

Lemma bounded_levels (lks : list LinkData) (slug : SimpleSlug) (d : Z) :
  bounded lks slug d
  = Some (st_neighbourhood (after_levels (Z.to_nat (d + 1)) lks (initial slug d))).
Proof. unfold bounded. now rewrite while_loop_ends. Qed.

(** ** What the levels collect *)

Lemma pushed_adjacent (lks : list LinkData) (a b : SimpleSlug) :
  In b (pushed lks a) <-> adjacent lks a b.
Proof.
  unfold pushed, adjacent. rewrite in_app_iff, !in_map_iff. split.
  - intros [[l [Hb Hl]]|[l [Hb Hl]]]; apply filter_In in Hl;
      destruct Hl as [Hl He]; apply String.eqb_eq in He; exists l; auto.
  - intros [l [Hl [[Ha Hb]|[Ha Hb]]]]; [left|right]; exists l;
      (split; [assumption|]); apply filter_In; (split; [assumption|]);
      now apply String.eqb_eq.
Qed.

Lemma until_sentinel_run (run : list string) :
  ~ In SENTINEL run -> until_sentinel (run ++ [SENTINEL]) = (run, []).
Proof.
  induction run as [|cur run IH]; intros Hn; simpl.
  - reflexivity.
  - destruct (String.eqb cur SENTINEL) eqn:E.
    + apply String.eqb_eq in E. exfalso. apply Hn. now left.
    + rewrite IH; auto. intro F. apply Hn. now right.
Qed.

Lemma sentinel_free_In (lks : list LinkData) :
  sentinel_free lks ->
  forall l, In l lks -> source l <> SENTINEL /\ target l <> SENTINEL.
Proof.
  unfold sentinel_free. rewrite forallb_forall. intros H l Hl.
  specialize (H l Hl). apply andb_true_iff in H. destruct H as [H1 H2].
  apply negb_true_iff in H1, H2. now apply String.eqb_neq in H1, H2.
Qed.

Lemma pushed_sentinel_free (lks : list LinkData) (run : list string) :
  sentinel_free lks -> ~ In SENTINEL (flat_map (pushed lks) run).
Proof.
  intros Hf F. pose proof (sentinel_free_In lks Hf) as Hf'. clear Hf.
  rename Hf' into Hf. apply in_flat_map in F. destruct F as [a [_ Ha]].
  apply pushed_adjacent in Ha.
  destruct Ha as [l [Hl [[_ Hb]|[_ Hb]]]]; destruct (Hf l Hl); congruence.
Qed.

Lemma after_levels_In (lks : list LinkData) (levels : nat) :
  sentinel_free lks ->
  forall (run : list string) (nb : list SimpleSlug) (d : Z) (x : SimpleSlug),
    ~ In SENTINEL run ->
    In x (st_neighbourhood
            (after_levels levels lks (mkState d (run ++ [SENTINEL]) nb)))
    <-> In x nb \/ exists y k, In y run /\ k < levels /\ walk lks k y x.
Proof.
  intros Hf. induction levels as [|levels IH]; intros run nb d x Hrun.
  - simpl. split; [now left|]. intros [H|[y [k [_ [Hk _]]]]]; [assumption|lia].
  - simpl. rewrite until_sentinel_run by assumption. simpl.
    rewrite IH by now apply pushed_sentinel_free.
    rewrite addAll_In. split.
    + intros [[H|H]|[y' [k [Hy' [Hk Hw]]]]].
      * now left.
      * right. exists x, 0. repeat split; [assumption|lia|constructor].
      * apply in_flat_map in Hy'. destruct Hy' as [y [Hy Hp]].
        right. exists y, (S k). repeat split; [assumption|lia|].
        apply walk_edge with y'; [now apply pushed_adjacent|assumption].
    + intros [H|[y [k [Hy [Hk Hw]]]]].
      * left. now left.
      * inversion Hw; subst.
        -- left. now right.
        -- right. exists b, k0. repeat split; [|lia|assumption].
           apply in_flat_map. exists y. split; [assumption|].
           now apply pushed_adjacent.
Qed.

Lemma bounded_In (lks : list LinkData) (slug : SimpleSlug) (d : Z) :
  sentinel_free lks -> slug <> SENTINEL -> (0 <= d)%Z ->
  exists nb, bounded lks slug d = Some nb /\
    forall x, In x nb <-> reachable_within lks (Z.to_nat d) slug x.
Proof.
  intros Hf Hs Hd. rewrite bounded_levels. eexists. split; [reflexivity|].
  intro x. unfold initial.
  change [slug; SENTINEL] with ([slug] ++ [SENTINEL]).
  rewrite after_levels_In; auto.
  2:{ simpl. intros [F|[]]. congruence. }
  unfold reachable_within. split.
  - intros [[]|[y [k [[<-|[]] [Hk Hw]]]]]. exists k. split; [lia|assumption].
  - intros [k [Hk Hw]]. right. exists slug, k. simpl. repeat split; auto. lia.
Qed.


Lemma after_levels_keeps (lks : list LinkData) (levels : nat) :
  forall st x,
    In x (st_neighbourhood st) ->
    In x (st_neighbourhood (after_levels levels lks st)).
Proof.
  induction levels as [|levels IH]; intros st x H; simpl; auto.
  destruct (until_sentinel (st_wl st)) as [run after].
  apply IH. simpl. now apply Set_addAll_keeps.
Qed.

Lemma while_loop_more_fuel (lks : list LinkData) (fuel : nat) :
  forall st st' fuel',
    while_loop fuel lks st = Some st' -> fuel <= fuel' ->
    while_loop fuel' lks st = Some st'.
Proof.
  induction fuel as [|fuel IH]; intros st st' fuel' H Hle.
  - simpl in H. destruct (loop_cond st) eqn:E; [discriminate|].
    destruct fuel'; simpl; now rewrite E.
  - simpl in H. destruct (loop_cond st) eqn:E.
    + destruct fuel' as [|fuel']; [lia|]. simpl. rewrite E.
      apply IH with (1 := H). lia.
    + destruct fuel'; simpl; now rewrite E.
Qed.


Section NeighbourhoodFacts.
Variable simplifySlug : FullSlug -> SimpleSlug.

Lemma neighbourhood_bounded (data : ContentIndex) (cfg : Config)
    (slug : SimpleSlug) :
  (0 <= depth cfg)%Z ->
  neighbourhood simplifySlug data cfg slug
  = st_neighbourhood
      (after_levels (Z.to_nat (depth cfg + 1))
                    (fullLinks simplifySlug data cfg)
                    (initial slug (depth cfg))).
Proof.
  intro Hd. unfold neighbourhood.
  apply Z.leb_le in Hd. rewrite Hd. now rewrite bounded_levels.
Qed.

Lemma neighbourhood_unbounded (data : ContentIndex) (cfg : Config)
    (slug : SimpleSlug) :
  (depth cfg < 0)%Z ->
  neighbourhood simplifySlug data cfg slug = unbounded simplifySlug data cfg.
Proof.
  intro Hd. unfold neighbourhood.
  apply Z.leb_gt in Hd. now rewrite Hd.
Qed.

Lemma neighbourhood_reachable (data : ContentIndex) (cfg : Config)
    (slug : SimpleSlug) :
  (0 <= depth cfg)%Z -> slug <> SENTINEL ->
  sentinel_free (fullLinks simplifySlug data cfg) ->
  forall x, In x (neighbourhood simplifySlug data cfg slug)
            <-> reachable_within (fullLinks simplifySlug data cfg)
                                 (Z.to_nat (depth cfg)) slug x.
Proof.
  intros Hd Hs Hf x.
  destruct (bounded_In _ slug (depth cfg) Hf Hs Hd) as [nb [Hb Hnb]].
  unfold neighbourhood. pose proof Hd as Hd'.
  apply Z.leb_le in Hd'. rewrite Hd', Hb. apply Hnb.
Qed.
End NeighbourhoodFacts.

(** ** The claims on the traversal *)






(** C1, amended.  When neither the focus identifier nor an endpoint of an
    edge is the string ["__SENTINEL"], the neighbourhood for a hop limit
    [N >= 0] holds the identifiers reached from the focus by at most [N]
    traversals of the undirected closure of the full edge list: for 0 it is
    the focus alone, for 1 the focus and what is adjacent to it. *)
Theorem neighbourhood_within_hops :
  forall (simplifySlug : FullSlug -> SimpleSlug) (data : ContentIndex)
         (cfg : Config) (slug : SimpleSlug),
    (0 <= depth cfg)%Z ->
    slug <> SENTINEL ->
    sentinel_free (fullLinks simplifySlug data cfg) ->
    (forall x, In x (neighbourhood simplifySlug data cfg slug)
               <-> reachable_within (fullLinks simplifySlug data cfg)
                                    (Z.to_nat (depth cfg)) slug x)
    /\ (depth cfg = 0%Z -> neighbourhood simplifySlug data cfg slug = [slug])
    /\ (depth cfg = 1%Z ->
        forall x, In x (neighbourhood simplifySlug data cfg slug)
                  <-> x = slug \/ adjacent (fullLinks simplifySlug data cfg) slug x).
Proof.
  intros simplifySlug data cfg slug Hd Hs Hf.
  pose proof (neighbourhood_reachable simplifySlug data cfg slug Hd Hs Hf) as Hr.
  split; [exact Hr|]. split.
  - intro H0. rewrite neighbourhood_bounded by assumption.
    rewrite H0. simpl. unfold initial. simpl.
    destruct (String.eqb slug SENTINEL) eqn:E.
    + apply String.eqb_eq in E. contradiction.
    + reflexivity.
  - intros H1 x. rewrite Hr, H1. unfold reachable_within. simpl. split.
    + intros [k [Hk Hw]]. inversion Hw; subst.
      * now left.
      * right. assert (k0 = 0) by lia. subst. inversion H0; subst. assumption.
    + intros [->|Ha].
      * exists 0. split; [lia|constructor].
      * exists 1. split; [lia|]. apply walk_edge with x; [assumption|constructor].
Qed.

(** ** Edge construction *)

Section EdgeFacts.
Variable simplifySlug : FullSlug -> SimpleSlug.

Lemma fold_push_outgoing (valid : list SimpleSlug) (src : SimpleSlug)
    (outgoing : list SimpleSlug) :
  forall acc,
    fold_left (push_outgoing valid src) outgoing acc
    = acc ++ map (mkLink src) (filter (has valid) outgoing).
Proof.
  induction outgoing as [|dest outgoing IH]; intro acc; simpl.
  - now rewrite app_nil_r.
  - rewrite IH. unfold push_outgoing.
    destruct (has valid dest); simpl; [now rewrite <- app_assoc|reflexivity].
Qed.

Lemma fold_push_tags (src : SimpleSlug) (lt : list SimpleSlug) :
  forall acc,
    fold_left (fun acc tag => acc ++ [mkLink src tag]) lt acc
    = acc ++ map (mkLink src) lt.
Proof.
  induction lt as [|tag lt IH]; intro acc; simpl.
  - now rewrite app_nil_r.
  - rewrite IH. now rewrite <- app_assoc.
Qed.

Lemma entry_step_links (cfg : Config) (valid : list SimpleSlug)
    (lks : list LinkData) (tgs : list SimpleSlug)
    (entry : FullSlug * ContentDetails) :
  fst (entry_step simplifySlug cfg valid (lks, tgs) entry)
  = lks ++ entry_edges simplifySlug cfg valid entry.
Proof.
  destruct entry as [src details].
  unfold entry_step, entry_edges, link_edges, tag_edges. simpl.
  rewrite fold_push_outgoing.
  destruct (showTags cfg); simpl.
  - rewrite fold_push_tags. now rewrite <- app_assoc.
  - now rewrite app_nil_r.
Qed.

Lemma entry_step_tags (cfg : Config) (valid : list SimpleSlug)
    (lks : list LinkData) (tgs : list SimpleSlug)
    (entry : FullSlug * ContentDetails) (x : SimpleSlug) :
  In x (snd (entry_step simplifySlug cfg valid (lks, tgs) entry))
  <-> In x tgs
      \/ (showTags cfg = true /\ In x (localTags simplifySlug cfg (snd entry))).
Proof.
  destruct entry as [src details]. unfold entry_step. simpl.
  destruct (showTags cfg); simpl.
  - rewrite in_app_iff, filter_In, negb_true_iff. split.
    + intros [H|[H _]]; auto.
    + intros [H|[_ H]]; auto.
      destruct (includes tgs x) eqn:E; auto.
      left. now apply includes_In.
  - split; auto. intros [H|[H _]]; [assumption|discriminate].
Qed.

Lemma fold_entry_step (cfg : Config) (valid : list SimpleSlug)
    (data : ContentIndex) :
  forall acc,
    fst (fold_left (entry_step simplifySlug cfg valid) data acc)
    = fst acc ++ flat_map (entry_edges simplifySlug cfg valid) data
    /\ forall x,
         In x (snd (fold_left (entry_step simplifySlug cfg valid) data acc))
         <-> In x (snd acc)
             \/ (showTags cfg = true
                 /\ exists entry, In entry data
                      /\ In x (localTags simplifySlug cfg (snd entry))).
Proof.
  induction data as [|entry data IH]; intros [lks tgs];
    cbn [fold_left fst snd flat_map].
  - split; [now rewrite app_nil_r|].
    intro x. split; auto. intros [H|[_ [e [[] _]]]]. assumption.
  - destruct (IH (entry_step simplifySlug cfg valid (lks, tgs) entry))
      as [IHl IHt].
    split.
    + rewrite IHl, entry_step_links. now rewrite <- app_assoc.
    + intro x. rewrite IHt, entry_step_tags. split.
      * intros [[H|[Hs H]]|[Hs [e [He H]]]]; auto.
        -- right. split; auto. exists entry. split; [now left|assumption].
        -- right. split; auto. exists e. split; [now right|assumption].
      * intros [H|[Hs [e [[<-|He] H]]]].
        -- left. now left.
        -- left. right. now split.
        -- right. split; auto. exists e. now split.
Qed.

(** The full edge list, entry by entry. *)
Lemma fullLinks_entries (data : ContentIndex) (cfg : Config) :
  fullLinks simplifySlug data cfg
  = flat_map (entry_edges simplifySlug cfg (validLinks simplifySlug data)) data.
Proof.
  unfold fullLinks, buildGraph.
  now destruct (fold_entry_step cfg (validLinks simplifySlug data) data ([], []))
    as [-> _].
Qed.

Lemma tagNodes_In (data : ContentIndex) (cfg : Config) (x : SimpleSlug) :
  In x (tagNodes simplifySlug data cfg)
  <-> showTags cfg = true
      /\ exists entry, In entry data
           /\ In x (localTags simplifySlug cfg (snd entry)).
Proof.
  unfold tagNodes, buildGraph.
  destruct (fold_entry_step cfg (validLinks simplifySlug data) data ([], []))
    as [_ H].
  rewrite H. simpl. tauto.
Qed.

Lemma validLinks_In (data : ContentIndex) (x : SimpleSlug) :
  In x (validLinks simplifySlug data)
  <-> In x (map (fun e => simplifySlug (fst e)) data).
Proof.
  unfold validLinks, new_Set. rewrite addAll_In. simpl. tauto.
Qed.

Lemma fullLinks_In (data : ContentIndex) (cfg : Config) (l : LinkData) :
  In l (fullLinks simplifySlug data cfg)
  <-> exists entry, In entry data
        /\ source l = simplifySlug (fst entry)
        /\ ((In (target l)
                (match links (snd entry) with Some o => o | None => [] end)
             /\ In (target l) (map (fun e => simplifySlug (fst e)) data))
            \/ (showTags cfg = true
                /\ In (target l) (localTags simplifySlug cfg (snd entry)))).
Proof.
  rewrite fullLinks_entries, in_flat_map. split.
  - intros [entry [He Hl]]. exists entry. split; [assumption|].
    unfold entry_edges in Hl. apply in_app_or in Hl.
    destruct Hl as [Hl|Hl].
    + unfold link_edges in Hl. apply in_map_iff in Hl.
      destruct Hl as [dest [<- Hd]]. apply filter_In in Hd.
      destruct Hd as [Hd Hv]. apply has_In, validLinks_In in Hv.
      simpl. auto.
    + destruct (showTags cfg) eqn:E; [|contradiction].
      unfold tag_edges in Hl. apply in_map_iff in Hl.
      destruct Hl as [tag [<- Ht]]. simpl. auto.
  - intros [entry [He [Hs H]]]. exists entry. split; [assumption|].
    unfold entry_edges. apply in_or_app.
    destruct l as [s t]. simpl in *. subst s.
    destruct H as [[Hd Hv]|[E Ht]].
    + left. unfold link_edges. apply in_map. apply filter_In.
      split; [assumption|]. now apply has_In, validLinks_In.
    + right. rewrite E. unfold tag_edges. now apply in_map.
Qed.
End EdgeFacts.

(** ** The claims on the neighbourhood and on the edge list *)



Lemma unbounded_In (simplifySlug : FullSlug -> SimpleSlug)
    (data : ContentIndex) (cfg : Config) (x : SimpleSlug) :
  In x (unbounded simplifySlug data cfg)
  <-> In x (map (fun e => simplifySlug (fst e)) data)
      \/ (showTags cfg = true /\ In x (tagNodes simplifySlug data cfg)).
Proof.
  unfold unbounded. destruct (showTags cfg).
  - rewrite !addAll_In. simpl. intuition.
  - rewrite addAll_In. simpl. intuition. discriminate.
Qed.

(** C2, amended.  With a hop limit that is not negative the neighbourhood
    holds the focus identifier, unless that identifier is the string
    ["__SENTINEL"].  With a negative hop limit it holds the keys of the
    content index, to which the tag nodes are added when tags are shown,
    whatever the focus. *)
Theorem neighbourhood_focus_or_index :
  forall (simplifySlug : FullSlug -> SimpleSlug) (data : ContentIndex)
         (cfg : Config) (slug : SimpleSlug),
    ((0 <= depth cfg)%Z -> slug <> SENTINEL ->
     In slug (neighbourhood simplifySlug data cfg slug))
    /\ ((depth cfg < 0)%Z ->
        (forall x, In x (neighbourhood simplifySlug data cfg slug)
                   <-> In x (map (fun e => simplifySlug (fst e)) data)
                       \/ (showTags cfg = true
                           /\ In x (tagNodes simplifySlug data cfg)))
        /\ forall slug', neighbourhood simplifySlug data cfg slug'
                         = neighbourhood simplifySlug data cfg slug).
Proof.
  intros simplifySlug data cfg slug. split.
  - intros Hd Hs. rewrite neighbourhood_bounded by assumption.
    destruct (Z.to_nat (depth cfg + 1)) as [|levels] eqn:E; [lia|].
    unfold initial. cbn [after_levels st_wl until_sentinel].
    destruct (String.eqb slug SENTINEL) eqn:Es.
    + apply String.eqb_eq in Es. contradiction.
    + cbn [until_sentinel]. rewrite String.eqb_refl.
      apply after_levels_keeps. simpl. now left.
  - intro Hd. split.
    + intro x. rewrite neighbourhood_unbounded by assumption.
      apply unbounded_In.
    + intro slug'. now rewrite !neighbourhood_unbounded by assumption.
Qed.

Lemma graphData_links_In (simplifySlug : FullSlug -> SimpleSlug)
    (data : ContentIndex) (cfg : Config) (slug : SimpleSlug) (l : LinkData) :
  In l (GraphData.links (graphData simplifySlug data cfg slug))
  <-> In l (fullLinks simplifySlug data cfg)
      /\ In (source l) (neighbourhood simplifySlug data cfg slug)
      /\ In (target l) (neighbourhood simplifySlug data cfg slug).
Proof.
  simpl. rewrite filter_In. unfold rendered.
  rewrite andb_true_iff, !has_In. tauto.
Qed.

Lemma graphData_nodes_id (simplifySlug : FullSlug -> SimpleSlug)
    (data : ContentIndex) (cfg : Config) (slug : SimpleSlug) :
  map id (GraphData.nodes (graphData simplifySlug data cfg slug))
  = neighbourhood simplifySlug data cfg slug.
Proof. simpl. rewrite map_map. simpl. apply map_id. Qed.

(** C3.  An edge of the full edge list is a rendered link exactly when its
    source and its target are in the neighbourhood, and the rendered nodes
    are the members of the neighbourhood: no rendered link has an endpoint
    that is not a rendered node. *)
Theorem rendered_links_iff :
  forall (simplifySlug : FullSlug -> SimpleSlug) (data : ContentIndex)
         (cfg : Config) (slug : SimpleSlug),
    let g := graphData simplifySlug data cfg slug in
    let nb := neighbourhood simplifySlug data cfg slug in
    map id (GraphData.nodes g) = nb
    /\ forall l, In l (GraphData.links g)
                 <-> In l (fullLinks simplifySlug data cfg)
                     /\ In (source l) nb /\ In (target l) nb.
Proof.
  intros simplifySlug data cfg slug g nb. split.
  - apply graphData_nodes_id.
  - intro l. apply graphData_links_In.
Qed.

Lemma entry_step_snd (simplifySlug : FullSlug -> SimpleSlug) (cfg : Config)
    (valid : list SimpleSlug) (lks : list LinkData) (tgs : list SimpleSlug)
    (entry : FullSlug * ContentDetails) :
  snd (entry_step simplifySlug cfg valid (lks, tgs) entry)
  = if showTags cfg
    then tgs ++ filter (fun tag => negb (includes tgs tag))
                       (localTags simplifySlug cfg (snd entry))
    else tgs.
Proof.
  destruct entry as [src details]. unfold entry_step. simpl.
  destruct (showTags cfg); reflexivity.
Qed.

(** The tag nodes depend on the tags of the pages alone. *)
Lemma fold_entry_step_tags (simplifySlug : FullSlug -> SimpleSlug)
    (cfg : Config) (data1 : ContentIndex) :
  forall (data2 : ContentIndex) (valid1 valid2 : list SimpleSlug)
         (lks1 lks2 : list LinkData) (tgs : list SimpleSlug),
    map (fun e => tags (snd e)) data1 = map (fun e => tags (snd e)) data2 ->
    snd (fold_left (entry_step simplifySlug cfg valid1) data1 (lks1, tgs))
    = snd (fold_left (entry_step simplifySlug cfg valid2) data2 (lks2, tgs)).
Proof.
  induction data1 as [|e1 data1 IH];
    intros [|e2 data2] valid1 valid2 lks1 lks2 tgs H; try discriminate.
  - reflexivity.
  - cbn [fold_left]. injection H as He H.
    assert (Hs : snd (entry_step simplifySlug cfg valid1 (lks1, tgs) e1)
                 = snd (entry_step simplifySlug cfg valid2 (lks2, tgs) e2)).
    { rewrite !entry_step_snd. unfold localTags. now rewrite He. }
    destruct (entry_step simplifySlug cfg valid1 (lks1, tgs) e1) as [l1 t1].
    destruct (entry_step simplifySlug cfg valid2 (lks2, tgs) e2) as [l2 t2].
    simpl in Hs. subst t2. now apply IH.
Qed.

Lemma filter_without (valid : list SimpleSlug) (earlier later : list SimpleSlug)
    (dest : SimpleSlug) :
  ~ In dest valid ->
  filter (has valid) (earlier ++ dest :: later)
  = filter (has valid) (earlier ++ later).
Proof.
  intro H. rewrite !filter_app. cbn [filter].
  destruct (has valid dest) eqn:E; [|reflexivity].
  apply has_In in E. contradiction.
Qed.

(** C4.  An outgoing link whose target is not a key of the content index
    adds nothing to what edge construction builds, for every configuration:
    the full edge list and the tag nodes are those of the index without
    that link, wherever the link stands among the links of its page, and no
    error arises.  An edge that ends at such a target is the edge of a tag:
    tags are shown and the target is the node of a tag of the source page. *)
Theorem dangling_links_dropped :
  forall (simplifySlug : FullSlug -> SimpleSlug)
         (before after : ContentIndex) (key : FullSlug) (ttl : string)
         (earlier later : list SimpleSlug) (tgs : list string)
         (dest : SimpleSlug) (cfg : Config),
    let data :=
      before ++ (key, mkDetails ttl (Some (earlier ++ dest :: later)) tgs)
             :: after in
    let pruned :=
      before ++ (key, mkDetails ttl (Some (earlier ++ later)) tgs) :: after in
    ~ In dest (map (fun e => simplifySlug (fst e)) data) ->
    fullLinks simplifySlug data cfg = fullLinks simplifySlug pruned cfg
    /\ tagNodes simplifySlug data cfg = tagNodes simplifySlug pruned cfg
    /\ forall l,
         In l (fullLinks simplifySlug data cfg) -> target l = dest ->
         showTags cfg = true
         /\ exists entry, In entry data
              /\ source l = simplifySlug (fst entry)
              /\ In dest (localTags simplifySlug cfg (snd entry)).
Proof.
  intros simplifySlug before after key ttl earlier later tgs dest cfg
         data pruned Hn.
  assert (Hv : validLinks simplifySlug pruned = validLinks simplifySlug data).
  { unfold validLinks, data, pruned. now rewrite !map_app. }
  split; [|split].
  - rewrite !fullLinks_entries, Hv. unfold data, pruned.
    rewrite !flat_map_app. cbn [flat_map]. f_equal. f_equal.
    unfold entry_edges, link_edges, tag_edges. cbn [fst snd links].
    rewrite filter_without; [reflexivity|].
    intro F. apply Hn. now apply validLinks_In.
  - unfold tagNodes, buildGraph. apply fold_entry_step_tags.
    unfold data, pruned. now rewrite !map_app.
  - intros l Hl Ht. apply fullLinks_In in Hl.
    destruct Hl as [entry [He [Hs [[_ Hk]|[E Hg]]]]].
    + rewrite Ht in Hk. contradiction.
    + split; [assumption|]. exists entry. rewrite <- Ht. auto.
Qed.





(** ** The link objects after the link force is initialised *)

Lemma length_update {A : Type} (l : list A) :
  forall i x, List.length (update l i x) = List.length l.
Proof.
  induction l as [|h t IH]; intros [|i] x; simpl; auto.
Qed.

Lemma nth_error_update_same {A : Type} (l : list A) :
  forall i x y, nth_error l i = Some y -> nth_error (update l i x) i = Some x.
Proof.
  induction l as [|h t IH]; intros [|i] x y; simpl; try discriminate; auto.
  apply IH.
Qed.

Lemma nth_error_update_other {A : Type} (l : list A) :
  forall i j x, i <> j -> nth_error (update l i x) j = nth_error l j.
Proof.
  induction l as [|h t IH]; intros [|i] [|j] x Hij; simpl; auto;
    try contradiction.
Qed.

Lemma existsb_eqb_In (i : nat) (refs : list nat) :
  existsb (Nat.eqb i) refs = true <-> In i refs.
Proof.
  rewrite existsb_exists. split.
  - intros [j [Hj E]]. apply Nat.eqb_eq in E. now subst.
  - intro H. exists i. split; [assumption|apply Nat.eqb_refl].
Qed.

Lemma forceLink_initialize_pointwise (nodes : list NodeData) (refs : list nat) :
  NoDup refs ->
  forall store,
    (forall r, In r refs ->
       exists o o', nth_error store r = Some o
                    /\ resolve_object nodes o = Some o') ->
    exists store',
      forceLink_initialize nodes store refs = Some store'
      /\ List.length store' = List.length store
      /\ forall i, nth_error store' i
                   = if existsb (Nat.eqb i) refs
                     then match nth_error store i with
                          | Some o => resolve_object nodes o
                          | None => None
                          end
                     else nth_error store i.
Proof.
  induction 1 as [|r rest Hr Hnd IH]; intros store Hres.
  - exists store. simpl. auto.
  - destruct (Hres r (or_introl eq_refl)) as [o [o' [Ho Ho']]].
    simpl. rewrite Ho, Ho'.
    destruct (IH (update store r o')) as [store' [Hinit [Hlen Hnth]]].
    { intros r' Hr'. assert (r <> r') by (intro; subst; contradiction).
      rewrite nth_error_update_other by assumption.
      apply Hres. now right. }
    exists store'. split; [assumption|]. split.
    + now rewrite Hlen, length_update.
    + intro i. rewrite Hnth. destruct (Nat.eqb_spec i r) as [->|Hne].
      * simpl. destruct (existsb (Nat.eqb r) rest) eqn:E.
        -- apply existsb_eqb_In in E. contradiction.
        -- rewrite Ho, Ho'. now apply nth_error_update_same with o.
      * simpl. now rewrite nth_error_update_other by auto.
Qed.

Lemma find_id (nodes : list NodeData) (s : SimpleSlug) :
  forall n, find nodes s = Some n -> id n = s.
Proof.
  induction nodes as [|m nodes IH]; simpl; intros n; [discriminate|].
  destruct (find nodes s) as [k|].
  - intros [= <-]. now apply IH.
  - destruct (String.eqb_spec (id m) s); [|discriminate]. now intros [= <-].
Qed.

Lemma find_In (nodes : list NodeData) (s : SimpleSlug) :
  In s (map id nodes) -> exists n, find nodes s = Some n.
Proof.
  induction nodes as [|m nodes IH]; simpl; [tauto|].
  intros [E|H].
  - destruct (find nodes s) as [k|]; [now exists k|].
    exists m. rewrite E. now rewrite String.eqb_refl.
  - destruct (IH H) as [n ->]. now exists n.
Qed.

(** A rendered edge is resolved to two nodes with the identifiers of its
    endpoints. *)
Lemma resolve_rendered (nodes : list NodeData) (nb : list SimpleSlug)
    (l : LinkData) :
  map id nodes = nb -> rendered nb l = true ->
  exists n1 n2,
    resolve_object nodes (object_of l) = Some (mkObject (Node n1) (Node n2))
    /\ id n1 = source l /\ id n2 = target l.
Proof.
  intros Hid Hr. unfold rendered in Hr. apply andb_true_iff in Hr.
  destruct Hr as [H1 H2]. apply has_In in H1, H2. rewrite <- Hid in H1, H2.
  destruct (find_In nodes _ H1) as [n1 E1].
  destruct (find_In nodes _ H2) as [n2 E2].
  exists n1, n2. unfold resolve_object. simpl. rewrite E1, E2. simpl.
  split; [reflexivity|]. split; now apply find_id with nodes.
Qed.

Lemma rendered_refs_In (nb : list SimpleSlug) (lks : list LinkData) (i : nat) :
  In i (rendered_refs nb lks)
  <-> exists l, nth_error lks i = Some l /\ rendered nb l = true.
Proof.
  unfold rendered_refs. rewrite filter_In, in_seq. split.
  - intros [_ H]. destruct (nth_error lks i) as [l|]; [|discriminate].
    now exists l.
  - intros [l [Hl Hr]]. rewrite Hl. split; [|assumption].
    assert (nth_error lks i <> None) by congruence.
    apply nth_error_Some in H. lia.
Qed.

(** The store after the initialisation, object by object. *)
Lemma forceLink_initialize_links (nodes : list NodeData)
    (nb : list SimpleSlug) (lks : list LinkData) :
  map id nodes = nb ->
  forceLink_initialize nodes (map object_of lks) (rendered_refs nb lks)
  = Some (map (linked nodes nb) lks).
Proof.
  intro Hid.
  destruct (forceLink_initialize_pointwise nodes (rendered_refs nb lks))
    with (store := map object_of lks) as [store' [Hinit [Hlen Hnth]]].
  - apply NoDup_filter, seq_NoDup.
  - intros r Hr. apply rendered_refs_In in Hr. destruct Hr as [l [Hl Hr]].
    destruct (resolve_rendered nodes nb l Hid Hr) as [n1 [n2 [E _]]].
    exists (object_of l), (mkObject (Node n1) (Node n2)).
    split; [|assumption]. rewrite nth_error_map, Hl. reflexivity.
  - rewrite Hinit. f_equal. apply nth_error_ext. intro i.
    rewrite Hnth, !nth_error_map.
    destruct (existsb (Nat.eqb i) (rendered_refs nb lks)) eqn:E.
    + apply existsb_eqb_In, rendered_refs_In in E.
      destruct E as [l [Hl Hr]]. rewrite Hl. simpl.
      unfold linked. rewrite Hr.
      destruct (resolve_rendered nodes nb l Hid Hr) as [n1 [n2 [-> _]]].
      reflexivity.
    + destruct (nth_error lks i) as [l|] eqn:Hl; [|reflexivity]. simpl.
      unfold linked. destruct (rendered nb l) eqn:Hr; [|reflexivity].
      assert (In i (rendered_refs nb lks)) as Hin
        by (apply rendered_refs_In; now exists l).
      apply existsb_eqb_In in Hin. congruence.
Qed.

Lemma linked_touches (nodes : list NodeData) (nb : list SimpleSlug)
    (l : LinkData) (d : NodeData) :
  map id nodes = nb ->
  is_id (endpoint_id (obj_source (linked nodes nb l))) d
  || is_id (endpoint_id (obj_target (linked nodes nb l))) d
  = rendered nb l
    && (String.eqb (source l) (id d) || String.eqb (target l) (id d)).
Proof.
  intro Hid. unfold linked. destruct (rendered nb l) eqn:Hr.
  - destruct (resolve_rendered nodes nb l Hid Hr) as [n1 [n2 [-> [E1 E2]]]].
    simpl. now rewrite E1, E2.
  - reflexivity.
Qed.

(** Counting over the store counts the rendered edges that touch the node. *)
Lemma numLinks_linked (nodes : list NodeData) (nb : list SimpleSlug)
    (lks : list LinkData) (d : NodeData) :
  map id nodes = nb ->
  numLinks (map (linked nodes nb) lks) d
  = incident (filter (rendered nb) lks) (id d).
Proof.
  intro Hid. unfold numLinks, incident.
  induction lks as [|l lks IH]; [reflexivity|].
  cbn [map filter]. rewrite linked_touches by assumption.
  destruct (rendered nb l); cbn [andb filter].
  - destruct (String.eqb (source l) (id d) || String.eqb (target l) (id d));
      cbn [List.length]; now rewrite IH.
  - exact IH.
Qed.

Section RendererFacts.
Variable simplifySlug : FullSlug -> SimpleSlug.

Lemma renderGraph_drawing (data : ContentIndex) (cfg : Config)
    (slug : SimpleSlug) (visited : list json) :
  renderGraph simplifySlug data cfg slug visited
  = Some (drawing_of (graphData simplifySlug data cfg slug) slug visited).
Proof.
  unfold renderGraph.
  rewrite forceLink_initialize_links by apply graphData_nodes_id.
  unfold drawing_of, nodeRadius. f_equal. f_equal.
  - apply map_ext. intro d.
    now rewrite numLinks_linked by apply graphData_nodes_id.
  - apply map_ext. intro d.
    now rewrite numLinks_linked by apply graphData_nodes_id.
Qed.
End RendererFacts.

(** ** Sets without repetition *)

Section DistinctFacts.
Context {A : Type} (same : A -> A -> bool).

Lemma Set_addAll_distinct (l : list A) :
  forall seen, distinct_from same seen l -> Set_addAll same seen l = seen ++ l.
Proof.
  induction l as [|x l IH]; intros seen H; simpl.
  - now rewrite app_nil_r.
  - destruct H as [Hx Hr]. unfold Set_addAll in *. simpl.
    unfold Set_add at 2. rewrite Hx. rewrite IH by assumption.
    now rewrite <- app_assoc.
Qed.

Lemma distinct_from_snoc (s : list A) (x : A) :
  forall seen,
    distinct_from same seen s -> Set_has same (seen ++ s) x = false ->
    distinct_from same seen (s ++ [x]).
Proof.
  induction s as [|y s IH]; intros seen Hs Hx; simpl in *.
  - rewrite app_nil_r in Hx. auto.
  - destruct Hs as [Hy Hs]. split; [assumption|].
    apply IH; [assumption|]. now rewrite <- app_assoc.
Qed.

Lemma Set_add_distinct (s : list A) (x : A) :
  distinct same s -> distinct same (Set_add same s x).
Proof.
  unfold distinct, Set_add. intro H.
  destruct (Set_has same s x) eqn:E; [assumption|].
  now apply distinct_from_snoc.
Qed.

Lemma Set_addAll_keeps_distinct (l : list A) :
  forall s, distinct same s -> distinct same (Set_addAll same s l).
Proof.
  unfold Set_addAll. induction l as [|x l IH]; intros s H; simpl; auto.
  apply IH. now apply Set_add_distinct.
Qed.

Lemma new_Set_distinct (l : list A) : distinct same (new_Set same l).
Proof. apply Set_addAll_keeps_distinct. exact I. Qed.

(** Building a set from the elements of a set gives it back. *)
Lemma new_Set_of_distinct (s : list A) :
  distinct same s -> new_Set same s = s.
Proof. intro H. unfold new_Set. now rewrite Set_addAll_distinct. Qed.
End DistinctFacts.

(** ** The visited-page store *)

Lemma sameValueZero_string (x : string) (y : json) :
  sameValueZero (JString x) y = true <-> y = JString x.
Proof.
  destruct y; simpl; split; try discriminate.
  - intro H. apply String.eqb_eq in H. now subst.
  - intros [= ->]. apply String.eqb_refl.
Qed.

Lemma Set_has_string (s : list json) (x : string) :
  Set_has sameValueZero s (JString x) = true <-> In (JString x) s.
Proof.
  unfold Set_has. rewrite existsb_exists. split.
  - intros [y [Hy E]]. apply sameValueZero_string in E. now subst.
  - intro H. exists (JString x). split; [assumption|].
    now apply sameValueZero_string.
Qed.

Lemma Set_add_string_In (s : list json) (x : string) (y : json) :
  In y (Set_add sameValueZero s (JString x)) <-> In y s \/ y = JString x.
Proof.
  unfold Set_add. destruct (Set_has sameValueZero s (JString x)) eqn:E.
  - apply Set_has_string in E. split; [now left|]. intros [H| ->]; auto.
  - rewrite in_app_iff. simpl. intuition.
Qed.

(** In a set at most one element is a given string. *)
Lemma distinct_from_count (x : string) (l : list json) :
  forall seen,
    distinct_from sameValueZero seen l ->
    (Set_has sameValueZero seen (JString x) = true ->
     List.length (filter (sameValueZero (JString x)) l) = 0)
    /\ List.length (filter (sameValueZero (JString x)) l) <= 1.
Proof.
  induction l as [|y l IH]; intros seen H; cbn [filter distinct_from] in *.
  - split; auto.
  - destruct H as [Hy Hl]. destruct (IH _ Hl) as [IH0 IH1].
    destruct (sameValueZero (JString x) y) eqn:E.
    + apply sameValueZero_string in E. subst y.
      assert (Hin : Set_has sameValueZero (seen ++ [JString x]) (JString x) = true).
      { apply Set_has_string, in_or_app. right. now left. }
      cbn [List.length]. rewrite (IH0 Hin). split; [congruence|lia].
    + split; [|assumption]. intro Hs. apply IH0.
      apply Set_has_string. apply Set_has_string in Hs.
      apply in_or_app. now left.
Qed.

Lemma count_In (x : string) (l : list json) :
  In (JString x) l -> 1 <= List.length (filter (sameValueZero (JString x)) l).
Proof.
  induction l as [|y l IH]; cbn [In filter]; [tauto|].
  intros [->|H].
  - cbn [sameValueZero]. rewrite String.eqb_refl. cbn [List.length]. lia.
  - destruct (sameValueZero (JString x) y); cbn [List.length]; [|auto].
    specialize (IH H). lia.
Qed.

Lemma Set_of_json_distinct (v : json) (s : list json) :
  Set_of_json v = Returned s -> distinct sameValueZero s.
Proof.
  destruct v; simpl; try discriminate; intros [= <-];
    try apply new_Set_distinct. exact I.
Qed.

Lemma kept_idem (v : json) : kept (kept v) = kept v.
Proof.
  destruct v as [| | x | | |]; try reflexivity.
  simpl. destruct (PrimFloat.is_zero x) eqn:E; simpl.
  - reflexivity.
  - now rewrite E.
Qed.

(** The members of a set are values a set keeps. *)
Lemma Set_of_json_kept (v : json) (s : list json) :
  Set_of_json v = Returned s -> forall y, In y s -> kept y = y.
Proof.
  destruct v as [| | | str | l |]; simpl; try discriminate;
    intros [= <-] y Hy.
  - destruct Hy.
  - apply Set_addAll_from in Hy. destruct Hy as [[]|Hy].
    unfold characters in Hy. apply in_map_iff in Hy.
    destruct Hy as [p [<- _]]. reflexivity.
  - apply Set_addAll_from in Hy. destruct Hy as [[]|Hy].
    apply in_map_iff in Hy. destruct Hy as [z [<- _]]. apply kept_idem.
Qed.

Lemma map_kept_visited (JSON_parse : string -> option json)
    (store : Storage) (visited : list json) (x : string) :
  getVisited JSON_parse store = Returned visited ->
  map kept (Set_add sameValueZero visited (JString x))
  = Set_add sameValueZero visited (JString x).
Proof.
  unfold getVisited. destruct (JSON_parse _) as [v|]; [|discriminate].
  intro H. rewrite <- map_id. apply map_ext_in. intros y Hy.
  apply Set_add_string_In in Hy. destruct Hy as [Hy| ->]; [|reflexivity].
  now apply (Set_of_json_kept v visited).
Qed.

Lemma getVisited_distinct (JSON_parse : string -> option json)
    (store : Storage) (visited : list json) :
  getVisited JSON_parse store = Returned visited ->
  distinct sameValueZero visited.
Proof.
  unfold getVisited. destruct (JSON_parse _) as [v|]; [|discriminate].
  apply Set_of_json_distinct.
Qed.

(** C8, amended.  With no value under the key, [getVisited] returns the
    empty set.  With a value that [JSON.parse] rejects it returns nothing:
    the SyntaxError of [JSON.parse] is thrown to the caller. *)
Theorem getVisited_missing_or_garbled :
  forall (JSON_parse : string -> option json),
    JSON_parse "[]" = Some (JArray []) ->
    getVisited JSON_parse None = Returned []
    /\ forall stored, JSON_parse stored = None ->
                      getVisited JSON_parse (Some stored) = Thrown SyntaxError.
Proof.
  intros JSON_parse Hempty. unfold getVisited. split.
  - rewrite Hempty. reflexivity.
  - intros stored ->. reflexivity.
Qed.

(** C10, amended.  When [getVisited] reads the store as a set (the value is
    missing, or it parses to an array, a string or [null]) and what is
    written is read back as written, [addToVisited(X)] leaves a store whose
    set is the old set with [X] added: every member stays, [X] is a member
    and exactly one element is [X], and a set that held [X] is unchanged. *)
Theorem addToVisited_union :
  forall (JSON_parse : string -> option json) (JSON_stringify : json -> string)
         (store : Storage) (X : SimpleSlug) (visited : list json),
    getVisited JSON_parse store = Returned visited ->
    JSON_parse (JSON_stringify (JArray (Set_add sameValueZero visited (JString X))))
    = Some (JArray (Set_add sameValueZero visited (JString X))) ->
    exists store',
      addToVisited JSON_parse JSON_stringify X store = Returned store'
      /\ getVisited JSON_parse store'
         = Returned (Set_add sameValueZero visited (JString X))
      /\ (forall y, In y (Set_add sameValueZero visited (JString X))
                    <-> In y visited \/ y = JString X)
      /\ List.length (filter (sameValueZero (JString X))
                             (Set_add sameValueZero visited (JString X))) = 1
      /\ (In (JString X) visited ->
          Set_add sameValueZero visited (JString X) = visited).
Proof.
  intros JSON_parse JSON_stringify store X visited Hget Hround.
  pose proof (getVisited_distinct _ _ _ Hget) as Hd.
  pose proof (Set_add_distinct sameValueZero visited (JString X) Hd) as Hd'.
  eexists. split; [|split; [|split; [|split]]].
  - unfold addToVisited. rewrite Hget. reflexivity.
  - unfold getVisited. rewrite Hround. simpl.
    rewrite (map_kept_visited _ _ _ _ Hget).
    now rewrite new_Set_of_distinct.
  - intro y. apply Set_add_string_In.
  - destruct (distinct_from_count X _ [] Hd') as [_ Hle].
    assert (Hin : In (JString X) (Set_add sameValueZero visited (JString X)))
      by (apply Set_add_string_In; now right).
    apply count_In in Hin. lia.
  - intro Hin. unfold Set_add.
    apply Set_has_string in Hin. now rewrite Hin.
Qed.

(** ** The claims on the renderers *)

Lemma unbounded_all_rendered (simplifySlug : FullSlug -> SimpleSlug)
    (data : ContentIndex) (cfg : Config) (slug : SimpleSlug) :
  (depth cfg < 0)%Z ->
  filter (rendered (neighbourhood simplifySlug data cfg slug))
         (fullLinks simplifySlug data cfg)
  = fullLinks simplifySlug data cfg.
Proof.
  intro Hd. apply forallb_filter_id. apply forallb_forall. intros l Hl.
  unfold rendered. rewrite andb_true_iff, !has_In.
  rewrite neighbourhood_unbounded by assumption. rewrite !unbounded_In.
  apply fullLinks_In in Hl. destruct Hl as [entry [He [Hs H]]]. split.
  - left. rewrite Hs. now apply (in_map (fun e => simplifySlug (fst e))).
  - destruct H as [[_ Hv]|[E Ht]]; [now left|].
    right. split; [assumption|]. apply tagNodes_In.
    split; [assumption|]. now exists entry.
Qed.

(** What [nodeRadius] computes.  When a node is drawn the link force has
    been initialised: the objects of the rendered links, which are objects
    of the full list, have nodes as endpoints, the others still have
    strings.  The filter of line 187 runs over the full list and counts the
    rendered links that touch the node; with a negative hop limit every
    edge is rendered and the count is the one over the full edge list. *)
Theorem nodeRadius_counts_rendered_links :
  forall (simplifySlug : FullSlug -> SimpleSlug) (data : ContentIndex)
         (cfg : Config) (slug : SimpleSlug),
    let g := graphData simplifySlug data cfg slug in
    let lks := fullLinks simplifySlug data cfg in
    let nb := neighbourhood simplifySlug data cfg slug in
    exists store,
      forceLink_initialize (GraphData.nodes g) (map object_of lks)
                           (rendered_refs nb lks) = Some store
      /\ (forall d,
            numLinks store d = incident (GraphData.links g) (id d)
            /\ nodeRadius store d
               = (2 + sqrt (INR (incident (GraphData.links g) (id d))))%R)
      /\ ((depth cfg < 0)%Z ->
          forall d, numLinks store d = incident lks (id d)).
Proof.
  intros simplifySlug data cfg slug g lks nb.
  assert (Hid : map id (GraphData.nodes g) = nb) by apply graphData_nodes_id.
  exists (map (linked (GraphData.nodes g) nb) lks).
  split; [now apply forceLink_initialize_links|].
  assert (Hn : forall d, numLinks (map (linked (GraphData.nodes g) nb) lks) d
                         = incident (GraphData.links g) (id d)).
  { intro d. now apply numLinks_linked. }
  split.
  - intro d. split; [apply Hn|]. unfold nodeRadius. now rewrite Hn.
  - intros Hd d. rewrite Hn. unfold g, graphData. cbn [GraphData.links].
    now rewrite unbounded_all_rendered.
Qed.

(** C6, amended.  The force-directed renderer and the horizontal tree draw
    from [graphData]: two content indexes and configurations with the same
    [graphData] give, for one focus and one visited set, the same lines,
    circles and labels, and the same children of the root.  (The two radial
    renderers do not: they build their hierarchy from every key of the
    content index.) *)
Theorem renderers_of_graphData :
  forall (simplifySlug : FullSlug -> SimpleSlug)
         (data1 data2 : ContentIndex) (cfg1 cfg2 : Config)
         (slug : SimpleSlug) (visited : list json),
    graphData simplifySlug data1 cfg1 slug = graphData simplifySlug data2 cfg2 slug ->
    renderGraph simplifySlug data1 cfg1 slug visited
    = renderGraph simplifySlug data2 cfg2 slug visited
    /\ renderTreeGraph simplifySlug data1 cfg1 slug
       = renderTreeGraph simplifySlug data2 cfg2 slug.
Proof.
  intros simplifySlug data1 data2 cfg1 cfg2 slug visited H. split.
  - rewrite !renderGraph_drawing. now rewrite H.
  - unfold renderTreeGraph. now rewrite H.
Qed.

(* ================================================================== *)
(** * Examples *)

(** The chain of the specification: one hop from [b] reaches [a] and [c],
    no hop reaches [b] alone, two hops from [a] reach the whole chain. *)
Example chain_one_hop :
  neighbourhood exampleSlug chain (mkConfig 1 [] false) "b" = ["b"; "c"; "a"].
Proof. reflexivity. Qed.

Example chain_no_hop :
  neighbourhood exampleSlug chain (mkConfig 0 [] false) "b" = ["b"].
Proof. reflexivity. Qed.

Example chain_two_hops :
  neighbourhood exampleSlug chain (mkConfig 2 [] false) "a" = ["a"; "b"; "c"].
Proof. reflexivity. Qed.

(** The loop needs its iterations: three are not enough for one hop from
    [b], seven are. *)
Example chain_fuel :
  while_loop 3 (fullLinks exampleSlug chain (mkConfig 1 [] false)) (initial "b" 1)
  = None
  /\ option_map st_neighbourhood
       (while_loop 7 (fullLinks exampleSlug chain (mkConfig 1 [] false))
                   (initial "b" 1))
     = Some ["b"; "c"; "a"].
Proof. split; reflexivity. Qed.

(** *** C9 *)



Example round64_values :
  round64 (2 ^ 53 - 1) = (2 ^ 53 - 1)%Z
  /\ round64 (2 ^ 53 + 1) = (2 ^ 53)%Z
  /\ round64 (2 ^ 53 + 3) = (2 ^ 53 + 4)%Z
  /\ round64 (- (2 ^ 54 + 1)) = (- 2 ^ 54)%Z.
Proof. repeat split; reflexivity. Qed.

(** *** C1 *)

Lemma neighbourhood_within_hops_chain :
  (forall x, In x (neighbourhood exampleSlug chain (mkConfig 1 [] false) "b")
             <-> reachable_within
                   (fullLinks exampleSlug chain (mkConfig 1 [] false)) 1 "b" x)
  /\ (1%Z = 0%Z -> neighbourhood exampleSlug chain (mkConfig 1 [] false) "b" = ["b"])
  /\ (1%Z = 1%Z ->
      forall x, In x (neighbourhood exampleSlug chain (mkConfig 1 [] false) "b")
                <-> x = "b"
                    \/ adjacent (fullLinks exampleSlug chain (mkConfig 1 [] false))
                                "b" x).
Proof.
  apply (neighbourhood_within_hops exampleSlug chain (mkConfig 1 [] false) "b").
  - simpl. lia.
  - discriminate.
  - reflexivity.
Defined.

(** From [a] the page [b] is two traversals away, through the page whose
    slug is the level marker; the loop takes that slug for the marker and
    ends with [a] alone. *)
Lemma neighbourhood_within_hops_marked :
  reachable_within (fullLinks exampleSlug marked (mkConfig 2 [] false)) 2 "a" "b"
  /\ ~ In "b" (neighbourhood exampleSlug marked (mkConfig 2 [] false) "a").
Proof.
  split.
  - exists 2. split; [lia|].
    apply walk_edge with "__SENTINEL".
    { exists (mkLink "a" "__SENTINEL"). split; [now left|now left]. }
    apply walk_edge with "b"; [|constructor].
    exists (mkLink "__SENTINEL" "b"). split; [right; now left|now left].
  - vm_compute. intros [H|[]]. discriminate.
Qed.

(** *** C2 *)

Lemma neighbourhood_focus_or_index_chain :
  In "b" (neighbourhood exampleSlug chain (mkConfig 0 [] false) "b")
  /\ neighbourhood exampleSlug chain (mkConfig (-1) [] false) "c"
     = neighbourhood exampleSlug chain (mkConfig (-1) [] false) "b".
Proof.
  split.
  - apply (proj1 (neighbourhood_focus_or_index exampleSlug chain
                    (mkConfig 0 [] false) "b")).
    + simpl. lia.
    + discriminate.
  - apply (proj2 (neighbourhood_focus_or_index exampleSlug chain
                    (mkConfig (-1) [] false) "b")).
    simpl. lia.
Defined.

(** With the page whose slug is the level marker as focus, the loop pops the
    focus as a marker: the neighbourhood stays empty. *)
Lemma neighbourhood_focus_marked :
  (0 <= depth (mkConfig 0 [] false))%Z
  /\ ~ In "__SENTINEL"
          (neighbourhood exampleSlug marked (mkConfig 0 [] false) "__SENTINEL").
Proof. split; [simpl; lia|]. vm_compute. tauto. Qed.

(** *** C4 *)

(** The page [a] carries the tag [foo] and links to [tags/foo], which is no
    page: with that link or without it, edge construction gives the same
    edges and tag nodes. *)
Lemma dangling_links_dropped_tagged :
  fullLinks exampleSlug tagged (mkConfig 1 ["bar"] true)
  = fullLinks exampleSlug
      [("a", mkDetails "A" (Some ["b"; "zzz"]) ["foo"]);
       ("b", mkDetails "B" None ["foo"; "bar"])]
      (mkConfig 1 ["bar"] true)
  /\ tagNodes exampleSlug tagged (mkConfig 1 ["bar"] true)
     = tagNodes exampleSlug
         [("a", mkDetails "A" (Some ["b"; "zzz"]) ["foo"]);
          ("b", mkDetails "B" None ["foo"; "bar"])]
         (mkConfig 1 ["bar"] true)
  /\ forall l,
       In l (fullLinks exampleSlug tagged (mkConfig 1 ["bar"] true)) ->
       target l = "tags/foo" ->
       showTags (mkConfig 1 ["bar"] true) = true
       /\ exists entry, In entry tagged
            /\ source l = exampleSlug (fst entry)
            /\ In "tags/foo"
                  (localTags exampleSlug (mkConfig 1 ["bar"] true) (snd entry)).
Proof.
  apply (dangling_links_dropped exampleSlug []
           [("b", mkDetails "B" None ["foo"; "bar"])] "a" "A"
           [] ["b"; "zzz"] ["foo"] "tags/foo" (mkConfig 1 ["bar"] true)).
  vm_compute. intros [H|[H|[]]]; discriminate.
Defined.

Example dangling_links_dropped_edges :
  fullLinks exampleSlug tagged (mkConfig 1 ["bar"] false)
  = [mkLink "a" "b"].
Proof. reflexivity. Qed.

(** The link of [a] to [tags/foo] has a target that is no key of the index,
    and the edge from [a] to [tags/foo] is in the full edge list: it is the
    edge of the tag [foo]. *)
Lemma dangling_link_target_in_edge_list :
  In "tags/foo" (match links (mkDetails "A" (Some ["tags/foo"; "b"; "zzz"]) ["foo"])
                 with Some l => l | None => [] end)
  /\ In ("a", mkDetails "A" (Some ["tags/foo"; "b"; "zzz"]) ["foo"]) tagged
  /\ ~ In "tags/foo" (map fst tagged)
  /\ ~ In "tags/foo" (map (fun e => exampleSlug (fst e)) tagged)
  /\ In (mkLink "a" "tags/foo")
        (fullLinks exampleSlug tagged (mkConfig 1 ["bar"] true)).
Proof.
  repeat split.
  - now left.
  - now left.
  - vm_compute. intros [H|[H|[]]]; discriminate.
  - vm_compute. intros [H|[H|[]]]; discriminate.
  - vm_compute. right. now left.
Qed.

(** *** C5 *)


(** With the only tag removed, showing tags changes nothing; with it, two
    tag edges and one tag node are added. *)
Example showTags_nothing_to_show :
  graphData exampleSlug shared (mkConfig 2 ["t"] true) "a"
  = graphData exampleSlug shared (mkConfig 2 ["t"] false) "a"
  /\ fullLinks exampleSlug shared (mkConfig 2 [] false) = []
  /\ fullLinks exampleSlug shared (mkConfig 2 [] true)
     = [mkLink "a" "tags/t"; mkLink "b" "tags/t"]
  /\ tagNodes exampleSlug shared (mkConfig 2 [] true) = ["tags/t"].
Proof. repeat split; reflexivity. Qed.


(** *** C6 *)

(** The two sites have the same [graphData] one hop around [a]. *)
Lemma renderers_of_graphData_sites :
  renderGraph exampleSlug site1 (mkConfig 1 [] false) "a" [JString "b"]
  = renderGraph exampleSlug site2 (mkConfig 1 [] true) "a" [JString "b"]
  /\ renderTreeGraph exampleSlug site1 (mkConfig 1 [] false) "a"
     = renderTreeGraph exampleSlug site2 (mkConfig 1 [] true) "a".
Proof.
  apply (renderers_of_graphData exampleSlug site1 site2
           (mkConfig 1 [] false) (mkConfig 1 [] true) "a" [JString "b"]).
  vm_compute. reflexivity.
Defined.

(** The sites [site1] and [site3] have the same [graphData] one hop around
    [a]; [d3.stratify] accepts the table of both, and the radial renderers
    draw three nodes and two links for the first, four nodes and three
    links for the second. *)
Lemma radial_renderers_read_the_index :
  graphData exampleSlug site1 (mkConfig 1 [] false) "a"
  = graphData exampleSlug site3 (mkConfig 1 [] false) "a"
  /\ (exists d1 d3,
        renderRadialGraph site1 (mkConfig 1 [] false) "a" = inr d1
        /\ renderRadialGraph site3 (mkConfig 1 [] false) "a" = inr d3
        /\ renderRadialTidyGraph site1 (mkConfig 1 [] false) "a" = inr d1
        /\ renderRadialTidyGraph site3 (mkConfig 1 [] false) "a" = inr d3
        /\ map (fun r => title (row_details r)) (radial_nodes d1)
           = ["Home"; "A"; "B"]
        /\ map (fun r => title (row_details r)) (radial_nodes d3)
           = ["Home"; "A"; "B"; "C"]
        /\ List.length (radial_links d1) = 2
        /\ List.length (radial_links d3) = 3)
  /\ renderRadialGraph site1 (mkConfig 1 [] false) "a"
     <> renderRadialGraph site3 (mkConfig 1 [] false) "a"
  /\ renderRadialTidyGraph site1 (mkConfig 1 [] false) "a"
     <> renderRadialTidyGraph site3 (mkConfig 1 [] false) "a".
Proof.
  split; [vm_compute; reflexivity|]. split.
  - eexists. eexists. split; [vm_compute; reflexivity|].
    split; [vm_compute; reflexivity|]. repeat split; reflexivity.
  - split; vm_compute; intro H; injection H as H; discriminate.
Qed.

Example radial_rows :
  map (fun r => (row_id r, row_parentId r)) (dataRadial site2)
  = [(Some "index", EmptyString); (Some "a", "index"); (Some "b", "index");
     (Some "c", "notes")].
Proof. reflexivity. Qed.

(** [d3.stratify] throws on a table with a row whose parent has no row: the
    radial renderers draw nothing for [site2], where the folder [notes] has
    no index page, and for the chain, which has no page [index]. *)
Example radial_missing_parent :
  renderRadialGraph site2 (mkConfig 1 [] false) "a" = inl (missing "notes")
  /\ renderRadialGraph chain (mkConfig 1 [] false) "a" = inl (missing "index")
  /\ renderRadialGraph [] (mkConfig 1 [] false) "a" = inl no_root
  /\ renderRadialGraph [("index", mkDetails "Home" None []);
                        ("index/index", mkDetails "Home2" None [])]
                       (mkConfig 1 [] false) "a"
     = inl multiple_roots
  /\ renderRadialGraph [("index", mkDetails "Home" None []);
                        ("x/y", mkDetails "Y" None []);
                        ("y/x", mkDetails "X" None [])]
                       (mkConfig 1 [] false) "a"
     = inl cycle
  /\ renderRadialGraph [("index", mkDetails "Home" None []);
                        ("a", mkDetails "A" None []);
                        ("a/index", mkDetails "A2" None []);
                        ("a/b", mkDetails "B" None [])]
                       (mkConfig 1 [] false) "a"
     = inl (ambiguous "a").
Proof. repeat split; reflexivity. Qed.

(** *** C7 *)

Lemma nodeRadius_counts_rendered_links_chain :
  exists store,
    forceLink_initialize
      (GraphData.nodes (graphData exampleSlug chain (mkConfig 1 [] false) "a"))
      (map object_of (fullLinks exampleSlug chain (mkConfig 1 [] false)))
      (rendered_refs (neighbourhood exampleSlug chain (mkConfig 1 [] false) "a")
                     (fullLinks exampleSlug chain (mkConfig 1 [] false)))
    = Some store
    /\ (forall d,
          numLinks store d
          = incident (GraphData.links
                        (graphData exampleSlug chain (mkConfig 1 [] false) "a"))
                     (id d)
          /\ nodeRadius store d
             = (2 + sqrt (INR (incident
                                 (GraphData.links
                                    (graphData exampleSlug chain
                                               (mkConfig 1 [] false) "a"))
                                 (id d))))%R)
    /\ ((1 < 0)%Z ->
        forall d, numLinks store d
                  = incident (fullLinks exampleSlug chain (mkConfig 1 [] false))
                             (id d)).
Proof.
  exact (nodeRadius_counts_rendered_links exampleSlug chain
           (mkConfig 1 [] false) "a").
Defined.

(** C7.  The radius of a node is to be 2 plus the square root of the number
    of edges of the full edge list that touch it; the code gives less.  One
    hop around [a] in the chain, the edge from [b] to [c] is in the full
    edge list and is not rendered, so its object keeps its strings and
    [l.source.id] is undefined on it: two edges of the full list touch [b],
    one of them is counted, and the radius of [b] is 3 and not
    [2 + sqrt 2]. *)
Theorem nodeRadius_of_b_in_chain :
  exists store,
    forceLink_initialize
      (GraphData.nodes (graphData exampleSlug chain (mkConfig 1 [] false) "a"))
      (map object_of (fullLinks exampleSlug chain (mkConfig 1 [] false)))
      (rendered_refs (neighbourhood exampleSlug chain (mkConfig 1 [] false) "a")
                     (fullLinks exampleSlug chain (mkConfig 1 [] false)))
    = Some store
    /\ In (mkNode "b" "B" [])
          (GraphData.nodes (graphData exampleSlug chain (mkConfig 1 [] false) "a"))
    /\ incident (fullLinks exampleSlug chain (mkConfig 1 [] false)) "b" = 2
    /\ numLinks store (mkNode "b" "B" []) = 1
    /\ nodeRadius store (mkNode "b" "B" []) = 3%R
    /\ nodeRadius store (mkNode "b" "B" [])
       <> (2 + sqrt (INR (incident
                            (fullLinks exampleSlug chain (mkConfig 1 [] false))
                            "b")))%R.
Proof.
  eexists. split; [vm_compute; reflexivity|].
  split; [vm_compute; right; now left|].
  split; [reflexivity|]. split; [reflexivity|].
  assert (Hr : nodeRadius
                 [mkObject (Node (mkNode "a" "A" [])) (Node (mkNode "b" "B" []));
                  mkObject (Slug "b") (Slug "c")]
                 (mkNode "b" "B" []) = 3%R).
  { unfold nodeRadius.
    replace (numLinks _ _) with 1 by reflexivity.
    simpl INR. rewrite sqrt_1. lra. }
  split; [exact Hr|]. rewrite Hr.
  replace (incident _ _) with 2 by reflexivity.
  intro H.
  assert (Hs : sqrt (INR 2) = 1%R) by lra.
  assert (Hq : (sqrt (INR 2) * sqrt (INR 2) = INR 2)%R).
  { apply sqrt_sqrt. simpl. lra. }
  rewrite Hs in Hq. simpl in Hq. lra.
Qed.

(** *** C8 *)

Lemma getVisited_missing_or_garbled_ref :
  getVisited JSONRef.parse None = Returned []
  /\ getVisited JSONRef.parse (Some "{oops") = Thrown SyntaxError.
Proof.
  assert (H : JSONRef.parse "[]" = Some (JArray [])) by (vm_compute; reflexivity).
  split.
  - exact (proj1 (getVisited_missing_or_garbled JSONRef.parse H)).
  - apply (proj2 (getVisited_missing_or_garbled JSONRef.parse H)).
    vm_compute. reflexivity.
Defined.

(** The stored text [{oops] is no JSON: [getVisited] does not return the
    empty set, it throws. *)
Lemma getVisited_garbled_throws :
  JSONRef.parse "{oops" = None
  /\ getVisited JSONRef.parse (Some "{oops") <> Returned [].
Proof. split; [vm_compute; reflexivity|]. vm_compute. discriminate. Qed.

(** A text that is JSON and cannot be iterated makes [new Set] throw. *)
Example getVisited_number :
  getVisited JSONRef.parse (Some "5") = Thrown TypeError.
Proof. reflexivity. Qed.

(** *** C10 *)

Lemma addToVisited_union_ref :
  exists store',
    addToVisited JSONRef.parse JSONRef.stringify "b"
                 (Some (JSONRef.stringify (JArray [JString "a"])))
    = Returned store'
    /\ getVisited JSONRef.parse store'
       = Returned (Set_add sameValueZero [JString "a"] (JString "b"))
    /\ (forall y, In y (Set_add sameValueZero [JString "a"] (JString "b"))
                  <-> In y [JString "a"] \/ y = JString "b")
    /\ List.length (filter (sameValueZero (JString "b"))
                           (Set_add sameValueZero [JString "a"] (JString "b"))) = 1
    /\ (In (JString "b") [JString "a"] ->
        Set_add sameValueZero [JString "a"] (JString "b") = [JString "a"]).
Proof.
  apply (addToVisited_union JSONRef.parse JSONRef.stringify
           (Some (JSONRef.stringify (JArray [JString "a"]))) "b" [JString "a"]).
  - vm_compute. reflexivity.
  - vm_compute. reflexivity.
Defined.

(** The stored text [5] is JSON and no set can be made of a number:
    [addToVisited] throws and writes nothing. *)
Lemma addToVisited_number_store :
  option_map JSONRef.stringify (JSONRef.parse "5") = Some "5"
  /\ addToVisited JSONRef.parse JSONRef.stringify "b" (Some "5")
     = Thrown TypeError
  /\ forall visited,
       getVisited JSONRef.parse (Some "5") <> Returned visited.
Proof.
  split; [reflexivity|]. split; [reflexivity|].
  intros visited. vm_compute. discriminate.
Qed.

Example addToVisited_twice :
  match addToVisited JSONRef.parse JSONRef.stringify "b" None with
  | Returned store' =>
      addToVisited JSONRef.parse JSONRef.stringify "b" store' = Returned store'
      /\ getVisited JSONRef.parse store' = Returned [JString "b"]
  | Thrown _ => False
  end.
Proof. vm_compute. split; reflexivity. Qed.

(** Number tokens are read as numbers and written as numbers: [1], [1.0]
    and [1e0] are one member of the set, and so are [-0] and [0]. *)
Example getVisited_numbers :
  option_map JSONRef.stringify
    (JSONRef.parse "[1, 1.0, 1e0, 0.1, -0, 100e-2, 1e21, 1E400, 5e-324, 12.50]")
  = Some "[1,1,1,0.1,0,1,1e+21,null,5e-324,12.5]"
  /\ getVisited JSONRef.parse (Some "[1, 1.0, 1e0, -0, 0]")
     = Returned [JNumber PrimFloat.one; JNumber PrimFloat.zero]
  /\ addToVisited JSONRef.parse JSONRef.stringify "b" (Some "[1, 1.0]")
     = Returned (Some (JSONRef.stringify
                         (JArray [JNumber PrimFloat.one; JString "b"])))
  /\ JSONRef.stringify (JArray [JNumber PrimFloat.one; JString "b"])
     = string_of_list_ascii
         (list_ascii_of_string "[1," ++ JSONRef.quote "b" ++ ["]"%char]).
Proof. vm_compute. repeat split; reflexivity. Qed.

(** A number out of range is not read back as written: [1e400] is read as
    infinity, which is written [null]. *)
Example addToVisited_out_of_range :
  getVisited JSONRef.parse (Some "[1e400]")
  = Returned [JNumber PrimFloat.infinity]
  /\ match addToVisited JSONRef.parse JSONRef.stringify "b" (Some "[1e400]") with
     | Returned store' =>
         getVisited JSONRef.parse store' = Returned [JNull; JString "b"]
     | Thrown _ => False
     end.
Proof. vm_compute. split; reflexivity. Qed.

(** A stored string is iterated by code point: the two bytes of a letter
    with an accent are one member, and so are the two escapes of a
    surrogate pair. *)
Example getVisited_string_store :
  let e_acute := String (ascii_of_nat 195) (String (ascii_of_nat 169) EmptyString) in
  let pair :=
    string_of_list_ascii
      (JSONRef.dquote :: JSONRef.backslash :: list_ascii_of_string "ud83d"
       ++ JSONRef.backslash :: list_ascii_of_string "ude00" ++ [JSONRef.dquote]) in
  getVisited JSONRef.parse
    (Some (JSONRef.stringify (JString ("a" ++ e_acute ++ "a" ++ e_acute))))
  = Returned [JString "a"; JString e_acute]
  /\ getVisited JSONRef.parse (Some pair)
     = Returned [JString (string_of_list_ascii
                            (map ascii_of_nat [240; 159; 152; 128]))]
  /\ option_map JSONRef.stringify
       (JSONRef.parse
          (string_of_list_ascii
             (JSONRef.dquote :: JSONRef.backslash
              :: list_ascii_of_string "ud83dx" ++ [JSONRef.dquote])))
     = Some (string_of_list_ascii
               (JSONRef.dquote :: JSONRef.backslash
                :: list_ascii_of_string "ud83dx" ++ [JSONRef.dquote])).
Proof. vm_compute. repeat split; reflexivity. Qed.

(* ================================================================== *)
(** * Further properties of the script *)

(** ** The traversal *)

Lemma after_levels_shift (lks : list LinkData) (levels : nat) (c : Z) :
  forall d wl nb,
    after_levels levels lks (mkState (d + c) wl nb)
    = mkState (st_depth (after_levels levels lks (mkState d wl nb)) + c)
              (st_wl (after_levels levels lks (mkState d wl nb)))
              (st_neighbourhood (after_levels levels lks (mkState d wl nb))).
Proof.
  induction levels as [|levels IH]; intros d wl nb.
  - reflexivity.
  - cbn [after_levels st_wl st_depth st_neighbourhood].
    destruct (until_sentinel wl) as [run after].
    replace (d + c - 1)%Z with (d - 1 + c)%Z by lia. apply IH.
Qed.

Lemma after_levels_plus (lks : list LinkData) (k levels : nat) :
  forall st,
    after_levels (levels + k) lks st
    = after_levels k lks (after_levels levels lks st).
Proof.
  induction levels as [|levels IH]; intro st.
  - reflexivity.
  - cbn [Nat.add after_levels].
    destruct (until_sentinel (st_wl st)) as [run after]. apply IH.
Qed.



(** The result of the loop does not depend on the fuel that was enough. *)
Lemma while_loop_result (lks : list LinkData) (slug : SimpleSlug) (d : Z)
    (fuel : nat) (st : bfs_state) :
  while_loop fuel lks (initial slug d) = Some st ->
  st = after_levels (Z.to_nat (d + 1)) lks (initial slug d).
Proof.
  intro H. pose proof (while_loop_ends lks slug d) as He.
  set (f := loop_fuel (Z.to_nat (d + 1)) lks [slug; SENTINEL]) in He.
  apply while_loop_more_fuel with (fuel' := Nat.max fuel f) in H; [|lia].
  apply while_loop_more_fuel with (fuel' := Nat.max fuel f) in He; [|lia].
  congruence.
Qed.


Lemma hop_limit_levels (lks : list LinkData) (slug : SimpleSlug)
    (d d' : Z) (x : SimpleSlug) :
  (0 <= d <= d')%Z ->
  In x (st_neighbourhood (after_levels (Z.to_nat (d + 1)) lks (initial slug d))) ->
  In x (st_neighbourhood (after_levels (Z.to_nat (d' + 1)) lks (initial slug d'))).
Proof.
  intros Hd H.
  replace (Z.to_nat (d' + 1)) with (Z.to_nat (d + 1) + Z.to_nat (d' - d)) by lia.
  rewrite after_levels_plus. apply after_levels_keeps.
  unfold initial in *. replace d' with (d + (d' - d))%Z at 1 by lia.
  rewrite after_levels_shift. exact H.
Qed.

(** X1.  Raising a hop limit that is not negative never removes a member of
    the neighbourhood, for every content index, focus and tag options (the
    string ["__SENTINEL"] included). *)
Theorem hop_limit_monotone :
  forall (simplifySlug : FullSlug -> SimpleSlug) (data : ContentIndex)
         (remove : list string) (show : bool) (slug : SimpleSlug)
         (d d' : Z) (x : SimpleSlug),
    (0 <= d <= d')%Z ->
    In x (neighbourhood simplifySlug data (mkConfig d remove show) slug) ->
    In x (neighbourhood simplifySlug data (mkConfig d' remove show) slug).
Proof.
  intros simplifySlug data remove show slug d d' x Hd.
  rewrite !neighbourhood_bounded by (simpl; lia).
  cbn [depth].
  change (fullLinks simplifySlug data (mkConfig d' remove show))
    with (fullLinks simplifySlug data (mkConfig d remove show)).
  now apply hop_limit_levels.
Qed.

(** Sets of strings as lists without repetition. *)
Lemma distinct_from_NoDup (l : list string) :
  forall seen,
    distinct_from String.eqb seen l ->
    NoDup l /\ forall x, In x l -> ~ In x seen.
Proof.
  induction l as [|y l IH]; intros seen H.
  - split; [constructor|]. intros x [].
  - destruct H as [Hy Hl]. destruct (IH _ Hl) as [Hnd Hdis].
    assert (Hys : ~ In y seen).
    { intro F. apply has_In in F. unfold has in F. congruence. }
    split.
    + constructor; [|assumption].
      intro F. apply (Hdis y F). apply in_or_app. right. now left.
    + intros x [<-|Hx]; [assumption|].
      intro F. apply (Hdis x Hx). apply in_or_app. now left.
Qed.

Lemma after_levels_distinct (lks : list LinkData) (levels : nat) :
  forall st,
    distinct String.eqb (st_neighbourhood st) ->
    distinct String.eqb (st_neighbourhood (after_levels levels lks st)).
Proof.
  induction levels as [|levels IH]; intros st H.
  - exact H.
  - cbn [after_levels]. destruct (until_sentinel (st_wl st)) as [run after].
    apply IH. cbn [st_neighbourhood]. now apply Set_addAll_keeps_distinct.
Qed.

Lemma neighbourhood_distinct (simplifySlug : FullSlug -> SimpleSlug)
    (data : ContentIndex) (cfg : Config) (slug : SimpleSlug) :
  distinct String.eqb (neighbourhood simplifySlug data cfg slug).
Proof.
  destruct (Z.leb_spec 0 (depth cfg)) as [Hd|Hd].
  - rewrite neighbourhood_bounded by assumption.
    apply after_levels_distinct. exact I.
  - rewrite neighbourhood_unbounded by assumption. unfold unbounded.
    destruct (showTags cfg); repeat apply Set_addAll_keeps_distinct; exact I.
Qed.

(** X2.  No identifier is twice in the neighbourhood: the rendered nodes
    have pairwise different identifiers, whatever the hop limit. *)
Theorem rendered_nodes_unique :
  forall (simplifySlug : FullSlug -> SimpleSlug) (data : ContentIndex)
         (cfg : Config) (slug : SimpleSlug),
    NoDup (neighbourhood simplifySlug data cfg slug)
    /\ NoDup (map id (GraphData.nodes (graphData simplifySlug data cfg slug))).
Proof.
  intros simplifySlug data cfg slug.
  assert (H : NoDup (neighbourhood simplifySlug data cfg slug)).
  { apply (distinct_from_NoDup _ []). apply neighbourhood_distinct. }
  split; [exact H|]. now rewrite graphData_nodes_id.
Qed.

Lemma until_sentinel_In (wl : list string) (x : string) :
  (In x (fst (until_sentinel wl)) -> In x wl)
  /\ (In x (snd (until_sentinel wl)) -> In x wl).
Proof.
  induction wl as [|cur rest IH]; simpl; [tauto|].
  destruct (String.eqb cur SENTINEL).
  - simpl. tauto.
  - destruct (until_sentinel rest) as [run after]. simpl in *. tauto.
Qed.

Lemma after_levels_members (lks : list LinkData) (slug : SimpleSlug)
    (levels : nat) :
  forall st,
    (forall x, In x (st_wl st) ->
               x = SENTINEL \/ x = slug \/ endpoint_of lks x) ->
    (forall x, In x (st_neighbourhood st) -> x = slug \/ endpoint_of lks x) ->
    forall x, In x (st_neighbourhood (after_levels levels lks st)) ->
              x = slug \/ endpoint_of lks x.
Proof.
  induction levels as [|levels IH]; intros st Hwl Hnb x.
  - apply Hnb.
  - cbn [after_levels].
    pose proof (until_sentinel_split (st_wl st)) as Hsplit.
    pose proof (fun y => until_sentinel_In (st_wl st) y) as Hin.
    destruct (until_sentinel (st_wl st)) as [run after]. simpl in Hsplit, Hin.
    assert (Hrun : forall y, In y run -> y = slug \/ endpoint_of lks y).
    { intros y Hy. destruct (Hwl y (proj1 (Hin y) Hy)) as [E|H]; [|assumption].
      subst y. exfalso.
      assert (Hs : In SENTINEL (st_wl st)) by (apply (proj1 (Hin _)); exact Hy).
      destruct (Hsplit Hs) as [_ Hn]. contradiction. }
    apply IH; cbn [st_wl st_neighbourhood].
    + intros y Hy. apply in_app_or in Hy. destruct Hy as [Hy|Hy].
      * apply Hwl. now apply (proj2 (Hin y)).
      * apply in_app_or in Hy. destruct Hy as [Hy|[<-|[]]]; [|now left].
        right. right. apply in_flat_map in Hy. destruct Hy as [a [_ Ha]].
        apply pushed_adjacent in Ha. destruct Ha as [l [Hl [[_ Hb]|[_ Hb]]]];
          exists l; auto.
    + intros y Hy. apply addAll_In in Hy. destruct Hy as [Hy|Hy]; auto.
Qed.

(** X3.  Whatever the hop limit, a member of the neighbourhood is the focus,
    the identifier of a page of the index, or a tag node: nothing else is
    ever rendered as a node. *)
Theorem neighbourhood_members :
  forall (simplifySlug : FullSlug -> SimpleSlug) (data : ContentIndex)
         (cfg : Config) (slug x : SimpleSlug),
    In x (neighbourhood simplifySlug data cfg slug) ->
    x = slug
    \/ In x (map (fun e => simplifySlug (fst e)) data)
    \/ (showTags cfg = true /\ In x (tagNodes simplifySlug data cfg)).
Proof.
  intros simplifySlug data cfg slug x.
  destruct (Z.leb_spec 0 (depth cfg)) as [Hd|Hd].
  - rewrite neighbourhood_bounded by assumption. intro H.
    apply after_levels_members with (slug := slug) in H.
    + destruct H as [H|[l [Hl H]]]; [now left|]. right.
      apply fullLinks_In in Hl. destruct Hl as [entry [He [Hs Ht]]].
      destruct H as [H|H]; subst x.
      * left. rewrite Hs. now apply (in_map (fun e => simplifySlug (fst e))).
      * destruct Ht as [[_ Hv]|[E Ht]]; [now left|].
        right. split; [assumption|]. apply tagNodes_In.
        split; [assumption|]. now exists entry.
    + simpl. intros y [<-|[<-|[]]]; auto.
    + simpl. tauto.
  - rewrite neighbourhood_unbounded by assumption. intro H.
    apply unbounded_In in H. now right.
Qed.

(** ** The edge list and the tag nodes *)

(** X5.  The full edge list is built page by page in the order of the
    index: for each page the edges of its outgoing links whose target is a
    key, in the order of the links, then, when tags are shown, one edge to
    each of its tags that are not removed.  Nothing is merged: a link that
    occurs twice gives two edges. *)
Theorem edge_list_in_index_order :
  forall (simplifySlug : FullSlug -> SimpleSlug) (data : ContentIndex)
         (cfg : Config),
    fullLinks simplifySlug data cfg
    = flat_map
        (fun entry =>
           map (mkLink (simplifySlug (fst entry)))
               (filter (fun dest =>
                          has (validLinks simplifySlug data) dest)
                       (match links (snd entry) with
                        | Some l => l
                        | None => []
                        end))
           ++ (if showTags cfg
               then map (mkLink (simplifySlug (fst entry)))
                        (localTags simplifySlug cfg (snd entry))
               else []))
        data.
Proof.
  intros simplifySlug data cfg. rewrite fullLinks_entries.
  apply flat_map_ext. intro entry. reflexivity.
Qed.

(** X6.  Every edge starts at a page of the index, and when tags are not
    shown it also ends at one. *)
Theorem edges_start_at_pages :
  forall (simplifySlug : FullSlug -> SimpleSlug) (data : ContentIndex)
         (cfg : Config) (l : LinkData),
    In l (fullLinks simplifySlug data cfg) ->
    In (source l) (map (fun e => simplifySlug (fst e)) data)
    /\ (showTags cfg = false ->
        In (target l) (map (fun e => simplifySlug (fst e)) data)).
Proof.
  intros simplifySlug data cfg l Hl.
  apply fullLinks_In in Hl. destruct Hl as [entry [He [Hs Ht]]]. split.
  - rewrite Hs. now apply (in_map (fun e => simplifySlug (fst e))).
  - intro E. destruct Ht as [[_ Hv]|[E' _]]; [assumption|congruence].
Qed.

Lemma localTags_In (simplifySlug : FullSlug -> SimpleSlug) (cfg : Config)
    (details : ContentDetails) (x : SimpleSlug) :
  In x (localTags simplifySlug cfg details)
  <-> exists tag, In tag (tags details)
        /\ ~ In tag (removeTags cfg)
        /\ x = simplifySlug ("tags/" ++ tag)%string.
Proof.
  unfold localTags. rewrite in_map_iff. split.
  - intros [tag [<- Ht]]. apply filter_In in Ht. destruct Ht as [Ht Hr].
    exists tag. repeat split; auto.
    intro F. apply includes_In in F. rewrite F in Hr. discriminate.
  - intros [tag [Ht [Hr ->]]]. exists tag. split; [reflexivity|].
    apply filter_In. split; [assumption|].
    destruct (includes (removeTags cfg) tag) eqn:E; [|reflexivity].
    apply includes_In in E. contradiction.
Qed.

(** X7.  The tag nodes are the slugs [tags/<tag>] of the tags that some page
    carries and that are not in [removeTags], when tags are shown; there is
    none when they are not shown. *)
Theorem tag_nodes_iff :
  forall (simplifySlug : FullSlug -> SimpleSlug) (data : ContentIndex)
         (cfg : Config) (x : SimpleSlug),
    In x (tagNodes simplifySlug data cfg)
    <-> showTags cfg = true
        /\ exists key details tag,
             In (key, details) data
             /\ In tag (tags details)
             /\ ~ In tag (removeTags cfg)
             /\ x = simplifySlug ("tags/" ++ tag)%string.
Proof.
  intros simplifySlug data cfg x. rewrite tagNodes_In. split.
  - intros [E [[key details] [He Hx]]]. split; [assumption|].
    apply localTags_In in Hx. destruct Hx as [tag [Ht [Hr Hx]]].
    exists key, details, tag. auto.
  - intros [E [key [details [tag [He [Ht [Hr Hx]]]]]]]. split; [assumption|].
    exists (key, details). split; [assumption|].
    apply localTags_In. exists tag. auto.
Qed.

Lemma entry_step_tags_NoDup (simplifySlug : FullSlug -> SimpleSlug)
    (cfg : Config) (valid : list SimpleSlug) (lks : list LinkData)
    (tgs : list SimpleSlug) (entry : FullSlug * ContentDetails) :
  NoDup tgs -> NoDup (localTags simplifySlug cfg (snd entry)) ->
  NoDup (snd (entry_step simplifySlug cfg valid (lks, tgs) entry)).
Proof.
  intros Ht Hl. destruct entry as [src details]. unfold entry_step.
  simpl in *. destruct (showTags cfg); simpl; [|assumption].
  apply NoDup_app; [assumption|now apply NoDup_filter|].
  intros x Hx F. apply filter_In in F. destruct F as [_ F].
  apply includes_In in Hx. rewrite Hx in F. discriminate.
Qed.

Lemma fold_entry_step_NoDup (simplifySlug : FullSlug -> SimpleSlug)
    (cfg : Config) (valid : list SimpleSlug) (data : ContentIndex) :
  (forall entry, In entry data ->
     NoDup (localTags simplifySlug cfg (snd entry))) ->
  forall acc,
    NoDup (snd acc) ->
    NoDup (snd (fold_left (entry_step simplifySlug cfg valid) data acc)).
Proof.
  induction data as [|entry data IH]; intros Hl [lks tgs] Ht;
    cbn [fold_left].
  - exact Ht.
  - apply IH.
    + intros e He. apply Hl. now right.
    + apply entry_step_tags_NoDup; [exact Ht|]. apply Hl. now left.
Qed.

(** X8.  When no page gives the same tag node twice, the array [tags] holds
    every tag node once: the test [!tags.includes(tag)] keeps out the tag
    nodes of earlier pages. *)
Theorem tag_nodes_unique :
  forall (simplifySlug : FullSlug -> SimpleSlug) (data : ContentIndex)
         (cfg : Config),
    (forall entry, In entry data ->
       NoDup (localTags simplifySlug cfg (snd entry))) ->
    NoDup (tagNodes simplifySlug data cfg).
Proof.
  intros simplifySlug data cfg H. unfold tagNodes, buildGraph.
  apply fold_entry_step_NoDup; [exact H|constructor].
Qed.

(** X9.  With a negative hop limit the whole graph is drawn: every edge of
    the full edge list is a rendered link, in the same order, and the
    rendered nodes are the pages of the index and, when tags are shown, the
    tag nodes. *)
Theorem unbounded_draws_everything :
  forall (simplifySlug : FullSlug -> SimpleSlug) (data : ContentIndex)
         (cfg : Config) (slug : SimpleSlug),
    (depth cfg < 0)%Z ->
    GraphData.links (graphData simplifySlug data cfg slug)
    = fullLinks simplifySlug data cfg
    /\ forall x,
         In x (map id (GraphData.nodes (graphData simplifySlug data cfg slug)))
         <-> In x (map (fun e => simplifySlug (fst e)) data)
             \/ (showTags cfg = true /\ In x (tagNodes simplifySlug data cfg)).
Proof.
  intros simplifySlug data cfg slug Hd. split.
  - cbn [graphData GraphData.links]. now apply unbounded_all_rendered.
  - intro x. rewrite graphData_nodes_id.
    rewrite neighbourhood_unbounded by assumption. apply unbounded_In.
Qed.

(** ** The force-directed drawing *)


Lemma incident_le (lks : list LinkData) (x : SimpleSlug) :
  incident lks x <= List.length lks.
Proof. unfold incident. apply filter_length_le. Qed.

(** X11.  Every circle the force-directed renderer draws has a radius
    between 2 and 2 plus the square root of the number of rendered links,
    and its label is drawn one radius above the centre. *)
Theorem circle_radius_bounds :
  forall (simplifySlug : FullSlug -> SimpleSlug) (data : ContentIndex)
         (cfg : Config) (slug : SimpleSlug) (visited : list json),
    exists drawing,
      renderGraph simplifySlug data cfg slug visited = Some drawing
      /\ (forall c, In c (circles drawing) ->
            (2 <= circle_r c
             <= 2 + sqrt (INR (List.length (lines drawing))))%R)
      /\ map label_dy (labels drawing)
         = map (fun c => (- circle_r c)%R) (circles drawing).
Proof.
  intros simplifySlug data cfg slug visited.
  eexists. split; [apply renderGraph_drawing|].
  unfold drawing_of. cbn [lines circles labels]. split.
  - intros c Hc. apply in_map_iff in Hc. destruct Hc as [d [<- _]].
    cbn [circle_r]. split.
    + pose proof (sqrt_pos (INR (incident
                     (GraphData.links (graphData simplifySlug data cfg slug))
                     (id d)))). lra.
    + apply Rplus_le_compat_l. apply sqrt_le_1.
      * apply pos_INR.
      * apply pos_INR.
      * apply le_INR. apply incident_le.
  - rewrite !map_map. reflexivity.
Qed.

Lemma substring_all (s : string) : String.substring 0 (String.length s) s = s.
Proof. induction s as [|c s IH]; simpl; [reflexivity|now rewrite IH]. Qed.

(** X12.  A node whose identifier is [tags/<name>] is labelled [#<name>],
    also when the index has a page with that key and a title; a node with
    another identifier is labelled with the title of its page, or with the
    identifier itself when the index has no such key. *)
Theorem node_text :
  forall (data : ContentIndex) (name url : string),
    text (node_of data ("tags/" ++ name)%string) = ("#" ++ name)%string
    /\ (startsWith url "tags/" = false ->
        text (node_of data url)
        = match lookup data url with
          | Some details => title details
          | None => url
          end).
Proof.
  intros data name url. split.
  - unfold node_of, startsWith, substring_from. simpl.
    destruct name as [|c name]; [reflexivity|].
    simpl. now rewrite substring_all.
  - intro H. unfold node_of. rewrite H. reflexivity.
Qed.

(** ** The table of the radial renderers *)

Lemma split_slash_nonempty (s : string) : split_slash s <> [].
Proof.
  induction s as [|c s IH]; simpl; [discriminate|].
  destruct (Ascii.eqb c "/"); [discriminate|].
  destruct (split_slash s); discriminate.
Qed.

Lemma split_slash_no_slash (n : string) :
  no_slash n = true -> split_slash n = [n].
Proof.
  induction n as [|c n IH]; simpl; [reflexivity|].
  intro H. apply andb_true_iff in H. destruct H as [Hc Hn].
  apply negb_true_iff in Hc. rewrite Hc, (IH Hn). reflexivity.
Qed.

Lemma split_slash_app (p n : string) :
  no_slash n = true ->
  split_slash (p ++ "/" ++ n)%string = split_slash p ++ [n].
Proof.
  intro Hn. induction p as [|c p IH].
  - simpl. now rewrite split_slash_no_slash.
  - simpl in IH |- *. rewrite IH. destruct (Ascii.eqb c "/"); [reflexivity|].
    pose proof (split_slash_nonempty p) as Hp.
    destruct (split_slash p) as [|seg segs]; [contradiction|reflexivity].
Qed.

Lemma at_index_app_last (xs : list string) (n : string) :
  at_index (xs ++ [n]) (Z.of_nat (List.length (xs ++ [n])) - 1) = Some n.
Proof.
  unfold at_index. rewrite length_app. simpl.
  replace (Z.of_nat (List.length xs + 1) - 1 <? 0)%Z with false
    by (symmetry; apply Z.ltb_ge; lia).
  replace (Z.to_nat (Z.of_nat (List.length xs + 1) - 1)) with (List.length xs)
    by lia.
  rewrite nth_error_app2 by lia. now rewrite Nat.sub_diag.
Qed.

Lemma at_index_app_before (xs : list string) (n : string) (k : Z) :
  (2 <= k)%Z ->
  at_index (xs ++ [n]) (Z.of_nat (List.length (xs ++ [n])) - k)
  = at_index xs (Z.of_nat (List.length xs) - (k - 1)).
Proof.
  intro Hk. unfold at_index. rewrite length_app. simpl.
  replace (Z.of_nat (List.length xs + 1) - k)%Z
    with (Z.of_nat (List.length xs) - (k - 1))%Z by lia.
  destruct (Z.ltb_spec (Z.of_nat (List.length xs) - (k - 1)) 0);
    [reflexivity|].
  apply nth_error_app1. lia.
Qed.

Lemma at_index_last (xs : list string) :
  xs <> [] ->
  at_index xs (Z.of_nat (List.length xs) - 1) = Some (last xs EmptyString).
Proof.
  intro H. destruct (exists_last H) as [ys [q ->]].
  rewrite at_index_app_last. now rewrite last_last.
Qed.

Lemma is_string_Some (x s : string) :
  is_string (Some x) s = true <-> x = s.
Proof. simpl. apply String.eqb_eq. Qed.

(** The row of a key [p/n] whose last segment is not [index]. *)
Lemma radial_row_page (p n : string) (details : ContentDetails) :
  no_slash n = true -> n <> "index" ->
  radial_row (p ++ "/" ++ n)%string details
  = if String.eqb (last (split_slash p) EmptyString) "tags" then None
    else Some (mkRow (Some n) (last (split_slash p) EmptyString) details).
Proof.
  intros Hn Hi. unfold radial_row. rewrite split_slash_app by assumption.
  rewrite at_index_app_last.
  rewrite at_index_app_before by lia.
  rewrite at_index_app_before by lia.
  replace (2 - 1)%Z with 1%Z by lia.
  rewrite at_index_last by apply split_slash_nonempty.
  assert (E : is_string (Some n) "index" = false).
  { simpl. now apply String.eqb_neq. }
  rewrite E. cbn [andb negb is_string].
  destruct (String.eqb (last (split_slash p) EmptyString) "tags");
    reflexivity.
Qed.

(** X13.  A page [p/n] whose folder is not [tags] is given the row with
    identifier [n] and, as parent, the last segment of [p]: the identifier
    is the file name alone, so two pages with one file name in different
    folders get the same identifier. *)
Theorem radial_id_is_file_name :
  forall (p n : string) (details : ContentDetails),
    no_slash n = true -> n <> "index" ->
    last (split_slash p) EmptyString <> "tags" ->
    radial_row (p ++ "/" ++ n)%string details
    = Some (mkRow (Some n) (last (split_slash p) EmptyString) details).
Proof.
  intros p n details Hn Hi Hq. rewrite radial_row_page by assumption.
  apply String.eqb_neq in Hq. now rewrite Hq.
Qed.

(** X14.  A page [p/n] whose folder is [tags] and whose file name [n] is
    not [index] has no row: the radial renderers never draw it. *)
Theorem radial_drops_tag_pages :
  forall (p n : string) (details : ContentDetails),
    no_slash n = true -> n <> "index" ->
    last (split_slash p) EmptyString = "tags" ->
    radial_row (p ++ "/" ++ n)%string details = None.
Proof.
  intros p n details Hn Hi Hq. rewrite radial_row_page by assumption.
  now rewrite Hq.
Qed.

(** X15.  For a name [m] other than [index], the index page of the
    top-level folder [m] and the top-level page [m] get the same row:
    identifier [m], parent [index].  The page [index] itself gets the row
    without parent, the root. *)
Theorem radial_folder_index :
  forall (m : string) (details : ContentDetails),
    no_slash m = true -> m <> "index" ->
    radial_row (m ++ "/index")%string details
    = Some (mkRow (Some m) "index" details)
    /\ radial_row m details = Some (mkRow (Some m) "index" details)
    /\ radial_row "index" details
       = Some (mkRow (Some "index") EmptyString details).
Proof.
  intros m details Hm Hi.
  assert (E : String.eqb m "index" = false) by now apply String.eqb_neq.
  split; [|split].
  - unfold radial_row.
    change (m ++ "/index")%string with (m ++ "/" ++ "index")%string.
    rewrite (split_slash_app m "index") by reflexivity.
    rewrite split_slash_no_slash by assumption.
    unfold at_index. simpl. rewrite E. reflexivity.
  - unfold radial_row. rewrite split_slash_no_slash by assumption.
    unfold at_index. simpl. rewrite E. simpl. rewrite E. reflexivity.
  - reflexivity.
Qed.

Lemma at_index_in_range (xs : list string) (i : Z) :
  (0 <= i < Z.of_nat (List.length xs))%Z -> at_index xs i <> None.
Proof.
  intro H. unfold at_index.
  replace (i <? 0)%Z with false by (symmetry; apply Z.ltb_ge; lia).
  apply nth_error_Some. lia.
Qed.

Lemma radial_row_id (key : FullSlug) (details : ContentDetails)
    (row : RadialRow) :
  radial_row key details = Some row ->
  row_id row <> None /\ row_details row = details.
Proof.
  unfold radial_row.
  pose proof (split_slash_nonempty key) as Hne.
  set (crumb := split_slash key) in *.
  assert (Hlen : (1 <= Z.of_nat (List.length crumb))%Z).
  { destruct crumb; [contradiction|]. simpl List.length. lia. }
  destruct (is_string (at_index crumb (Z.of_nat (List.length crumb) - 1)) "index"
            && (1 <? Z.of_nat (List.length crumb))%Z) eqn:E.
  - apply andb_true_iff in E. destruct E as [_ E]. apply Z.ltb_lt in E.
    destruct (negb _); [|discriminate]. intros [= <-]. simpl.
    split; [|reflexivity]. apply at_index_in_range. lia.
  - destruct (negb _); [|discriminate]. intros [= <-]. simpl.
    split; [|reflexivity]. apply at_index_in_range. lia.
Qed.

(** X16.  Every row of [dataRadial] has an identifier (it is never
    [undefined]) and carries the details of a page of the index, and there
    are at most as many rows as pages. *)
Theorem dataRadial_rows :
  forall (data : ContentIndex),
    (forall row, In row (dataRadial data) ->
       row_id row <> None
       /\ exists key, In (key, row_details row) data)
    /\ List.length (dataRadial data) <= List.length data.
Proof.
  induction data as [|[key details] data [IHr IHl]]; simpl.
  - split; [intros row []|lia].
  - destruct (radial_row key details) as [r|] eqn:E.
    + split; [|simpl; lia].
      intros row [<-|H].
      * destruct (radial_row_id _ _ _ E) as [Hid ->].
        split; [assumption|]. exists key. now left.
      * destruct (IHr row H) as [Hid [k Hk]]. split; [assumption|].
        exists k. now right.
    + split; [|lia]. intros row H.
      destruct (IHr row H) as [Hid [k Hk]]. split; [assumption|].
      exists k. now right.
Qed.

(** ** The horizontal tree *)



(** ** Navigation *)

Lemma addToVisited_thrown (JSON_parse : string -> option json)
    (JSON_stringify : json -> string) (store : Storage) (slug : FullSlug)
    (e : error) :
  addToVisited JSON_parse JSON_stringify slug store = Thrown e
  <-> getVisited JSON_parse store = Thrown e.
Proof.
  unfold addToVisited. destruct (getVisited JSON_parse store).
  - split; discriminate.
  - split; intros [= ->]; reflexivity.
Qed.

(** X18.  A store that [getVisited] cannot read is never repaired:
    [addToVisited] throws the error of [getVisited] before it writes, so
    after any sequence of [nav] events the store is the one it was and
    every one of the events has thrown that error. *)
Theorem unreadable_store_stays :
  forall (JSON_parse : string -> option json) (JSON_stringify : json -> string)
         (store : Storage) (e : error) (slugs : list FullSlug),
    getVisited JSON_parse store = Thrown e ->
    nav_visits JSON_parse JSON_stringify slugs store
    = (store, map (fun _ => Some e) slugs).
Proof.
  intros JSON_parse JSON_stringify store e slugs H.
  induction slugs as [|slug rest IH]; [reflexivity|].
  cbn [nav_visits map]. unfold nav_visit.
  apply (addToVisited_thrown JSON_parse JSON_stringify store slug) in H.
  rewrite H, IH. reflexivity.
Qed.

Lemma addToVisited_readback (JSON_parse : string -> option json)
    (JSON_stringify : json -> string) (store store' : Storage)
    (slug : FullSlug) (visited : list json) :
  getVisited JSON_parse store = Returned visited ->
  JSON_parse (JSON_stringify
                (JArray (Set_add sameValueZero visited (JString slug))))
  = Some (JArray (Set_add sameValueZero visited (JString slug))) ->
  addToVisited JSON_parse JSON_stringify slug store = Returned store' ->
  getVisited JSON_parse store'
  = Returned (Set_add sameValueZero visited (JString slug)).
Proof.
  intros Hget Hround Hadd. unfold addToVisited in Hadd.
  rewrite Hget in Hadd. injection Hadd as <-.
  unfold getVisited. rewrite Hround. simpl.
  rewrite (map_kept_visited _ _ _ _ Hget).
  rewrite new_Set_of_distinct; [reflexivity|].
  apply Set_add_distinct. now apply getVisited_distinct with JSON_parse store.
Qed.

(** X19.  [addToVisited] stores the slug it is given, and [color] looks a
    node up by its identifier: after [addToVisited(F)], a node that is not
    the focus is drawn in the visited colour exactly when its identifier
    was in the set before, is [F] itself, or starts with [tags/]. *)
Theorem color_after_visit :
  forall (JSON_parse : string -> option json) (JSON_stringify : json -> string)
         (store store' : Storage) (F : FullSlug) (visited : list json)
         (slug : SimpleSlug) (d : NodeData),
    getVisited JSON_parse store = Returned visited ->
    JSON_parse (JSON_stringify
                  (JArray (Set_add sameValueZero visited (JString F))))
    = Some (JArray (Set_add sameValueZero visited (JString F))) ->
    addToVisited JSON_parse JSON_stringify F store = Returned store' ->
    exists visited',
      getVisited JSON_parse store' = Returned visited'
      /\ (color slug visited' d = secondary <-> id d = slug)
      /\ (color slug visited' d = tertiary
          <-> id d <> slug
              /\ (In (JString (id d)) visited
                  \/ id d = F
                  \/ startsWith (id d) "tags/" = true)).
Proof.
  intros JSON_parse JSON_stringify store store' F visited slug d
         Hget Hround Hadd.
  exists (Set_add sameValueZero visited (JString F)).
  split; [now apply addToVisited_readback with JSON_stringify store|].
  unfold color. destruct (String.eqb_spec (id d) slug) as [E|E].
  - split; [tauto|]. split; [discriminate|]. intros [H _]. contradiction.
  - destruct (Set_has sameValueZero (Set_add sameValueZero visited (JString F))
                      (JString (id d))) eqn:Hv.
    + apply Set_has_string, Set_add_string_In in Hv. simpl.
      split; [split; [discriminate|contradiction]|].
      split; [|reflexivity]. intros _. split; [assumption|].
      destruct Hv as [Hv|Hv]; [now left|]. right. left. congruence.
    + assert (Hn : ~ (In (JString (id d)) visited \/ id d = F)).
      { intro H.
        assert (Hin : In (JString (id d))
                         (Set_add sameValueZero visited (JString F))).
        { apply Set_add_string_In. destruct H as [H|H]; [now left|].
          right. now rewrite H. }
        apply Set_has_string in Hin. congruence. }
      simpl. destruct (startsWith (id d) "tags/") eqn:Ht.
      * split; [split; [discriminate|contradiction]|].
        split; [|reflexivity]. intros _. split; [assumption|]. right. now right.
      * split; [split; [discriminate|contradiction]|].
        split; [discriminate|]. intros [_ [H|[H|H]]];
          [exfalso; apply Hn; now left
          |exfalso; apply Hn; now right
          |discriminate].
Qed.

(** ** The listeners of the icon *)

Lemma Renderer_eqb_eq (a b : Renderer) : Renderer_eqb a b = true <-> a = b.
Proof. destruct a, b; simpl; split; congruence. Qed.

Lemma removeEventListener_In (listeners : list Renderer) (h x : Renderer) :
  NoDup listeners ->
  (In x (removeEventListener listeners h) <-> In x listeners /\ x <> h).
Proof.
  induction 1 as [|y rest Hy Hnd IH]; simpl; [tauto|].
  destruct (Renderer_eqb y h) eqn:E.
  - apply Renderer_eqb_eq in E. subst y. split.
    + intro H. split; [now right|]. intro F. subst. contradiction.
    + intros [[F|H] Hne]; [congruence|assumption].
  - assert (y <> h) by (intro F; apply Renderer_eqb_eq in F; congruence).
    simpl. rewrite IH. split.
    + intros [<-|[H1 H2]]; auto.
    + intros [[<-|H1] H2]; auto.
Qed.

Lemma removeEventListener_NoDup (listeners : list Renderer) (h : Renderer) :
  NoDup listeners -> NoDup (removeEventListener listeners h).
Proof.
  induction 1 as [|y rest Hy Hnd IH]; simpl; [constructor|].
  destruct (Renderer_eqb y h); [assumption|].
  constructor; [|assumption].
  intro F. apply removeEventListener_In in F; tauto.
Qed.

Lemma nav_icon_app (listeners : list Renderer) (p : Layout) :
  NoDup listeners ->
  nav_icon listeners p
  = removeEventListener listeners (global_handler p) ++ [global_handler p].
Proof.
  intro H. unfold nav_icon, addEventListener, Set_add.
  destruct (Set_has Renderer_eqb _ _) eqn:E; [|reflexivity].
  unfold Set_has in E. apply existsb_exists in E.
  destruct E as [x [Hx E]]. apply Renderer_eqb_eq in E. subst x.
  apply removeEventListener_In in Hx; tauto.
Qed.

Lemma nav_icon_NoDup (listeners : list Renderer) (p : Layout) :
  NoDup listeners -> NoDup (nav_icon listeners p).
Proof.
  intro H. rewrite nav_icon_app by assumption.
  apply NoDup_app.
  - now apply removeEventListener_NoDup.
  - constructor; [intros []|constructor].
  - intros x Hx [<-|[]]. apply removeEventListener_In in Hx; tauto.
Qed.

Lemma nav_icon_In (listeners : list Renderer) (p : Layout) (x : Renderer) :
  NoDup listeners ->
  (In x (nav_icon listeners p) <-> In x listeners \/ x = global_handler p).
Proof.
  intro H. rewrite nav_icon_app by assumption.
  rewrite in_app_iff, removeEventListener_In by assumption. simpl.
  destruct (Renderer_eqb x (global_handler p)) eqn:E.
  - apply Renderer_eqb_eq in E. intuition.
  - assert (x <> global_handler p)
      by (intro F; apply Renderer_eqb_eq in F; congruence).
    intuition.
Qed.

Lemma fold_nav_icon (layouts : list Layout) :
  forall listeners,
    NoDup listeners ->
    NoDup (fold_left nav_icon layouts listeners)
    /\ forall x, In x (fold_left nav_icon layouts listeners)
                 <-> In x listeners
                     \/ exists p, In p layouts /\ x = global_handler p.
Proof.
  induction layouts as [|p layouts IH]; intros listeners H; simpl.
  - split; [assumption|]. intro x. split; [now left|].
    intros [Hx|[p [[] _]]]. assumption.
  - destruct (IH (nav_icon listeners p) (nav_icon_NoDup _ _ H)) as [Hnd Hin].
    split; [assumption|]. intro x. rewrite Hin, nav_icon_In by assumption.
    split.
    + intros [[Hx| ->]|[q [Hq ->]]].
      * now left.
      * right. exists p. split; [now left|reflexivity].
      * right. exists q. split; [now right|reflexivity].
    + intros [Hx|[q [[<-|Hq] ->]]].
      * left. now left.
      * left. now right.
      * right. exists q. now split.
Qed.

(** X20.  After any sequence of [nav] events the icon has every handler at
    most once; its handlers are those of the layouts seen so far (the
    handler of an earlier layout is never removed), the handler of the
    last layout is the last to run, and no handler draws the horizontal
    tree: the flag [tree] is read for the panel only, as [tidy] is for the
    icon only. *)
Theorem icon_listeners :
  forall (layouts : list Layout) (p : Layout),
    NoDup (fold_left nav_icon (layouts ++ [p]) [])
    /\ (forall x, In x (fold_left nav_icon (layouts ++ [p]) [])
                  <-> exists q, In q (layouts ++ [p]) /\ x = global_handler q)
    /\ (exists earlier,
          fold_left nav_icon (layouts ++ [p]) [] = earlier ++ [global_handler p])
    /\ ~ In HorizontalTree (fold_left nav_icon (layouts ++ [p]) [])
    /\ inline_renderer p <> RadialTidy.
Proof.
  intros layouts p.
  destruct (fold_nav_icon (layouts ++ [p]) [] (NoDup_nil _)) as [Hnd Hin].
  assert (Hiff : forall x, In x (fold_left nav_icon (layouts ++ [p]) [])
                 <-> exists q, In q (layouts ++ [p]) /\ x = global_handler q).
  { intro x. rewrite Hin. simpl. tauto. }
  split; [assumption|]. split; [assumption|]. split; [|split].
  - rewrite fold_left_app. simpl.
    destruct (fold_nav_icon layouts [] (NoDup_nil _)) as [Hnd' _].
    rewrite nav_icon_app by assumption. eexists. reflexivity.
  - intro F. apply Hiff in F. destruct F as [q [_ F]].
    unfold global_handler in F.
    destruct (radial q); [destruct (tidy q)|]; discriminate.
  - unfold inline_renderer.
    destruct (radial p); [|destruct (tree p)]; discriminate.
Qed.

(* ================================================================== *)
(** * Examples of the further properties *)

Lemma hop_limit_monotone_chain :
  In "c" (neighbourhood exampleSlug chain (mkConfig 2 [] false) "b").
Proof.
  apply (hop_limit_monotone exampleSlug chain [] false "b" 1 2 "c").
  - lia.
  - vm_compute. right. now left.
Defined.

Lemma neighbourhood_members_shared :
  "tags/t" = "a"
  \/ In "tags/t" (map (fun e => exampleSlug (fst e)) shared)
  \/ (showTags (mkConfig 2 [] true) = true
      /\ In "tags/t" (tagNodes exampleSlug shared (mkConfig 2 [] true))).
Proof.
  apply (neighbourhood_members exampleSlug shared (mkConfig 2 [] true)
           "a" "tags/t").
  vm_compute. right. now left.
Defined.


Example loop_ends_on_depth_state :
  while_loop64 7 (fullLinks exampleSlug chain (mkConfig 1 [] false))
               (initial "b" 1)
  = Some (mkState (-1) ["b"; "b"; "__SENTINEL"] ["b"; "c"; "a"]).
Proof. reflexivity. Qed.

Lemma edges_start_at_pages_tagged :
  In (source (mkLink "a" "b")) (map (fun e => exampleSlug (fst e)) tagged)
  /\ (showTags (mkConfig 1 ["bar"] false) = false ->
      In (target (mkLink "a" "b")) (map (fun e => exampleSlug (fst e)) tagged)).
Proof.
  apply (edges_start_at_pages exampleSlug tagged (mkConfig 1 ["bar"] false)).
  vm_compute. now left.
Defined.

Lemma tag_nodes_unique_tagged :
  NoDup (tagNodes exampleSlug tagged (mkConfig 1 ["bar"] true)).
Proof.
  apply (tag_nodes_unique exampleSlug tagged (mkConfig 1 ["bar"] true)).
  intros entry [<-|[<-|[]]]; vm_compute;
    (constructor; [intros []|constructor]).
Defined.

(** A page that carries one tag twice gives its tag node twice: both pass
    the test against the array as it was before the page. *)
Example tag_twice :
  tagNodes exampleSlug [("a", mkDetails "A" None ["t"; "t"])]
           (mkConfig 1 [] true)
  = ["tags/t"; "tags/t"].
Proof. reflexivity. Qed.

Lemma unbounded_draws_everything_shared :
  GraphData.links (graphData exampleSlug shared (mkConfig (-1) [] true) "a")
  = fullLinks exampleSlug shared (mkConfig (-1) [] true)
  /\ forall x,
       In x (map id (GraphData.nodes
                       (graphData exampleSlug shared (mkConfig (-1) [] true) "a")))
       <-> In x (map (fun e => exampleSlug (fst e)) shared)
           \/ (showTags (mkConfig (-1) [] true) = true
               /\ In x (tagNodes exampleSlug shared (mkConfig (-1) [] true))).
Proof.
  apply (unbounded_draws_everything exampleSlug shared
           (mkConfig (-1) [] true) "a").
  simpl. lia.
Defined.

Lemma node_text_chain :
  text (node_of chain "tags/x") = "#x"
  /\ text (node_of chain "a") = "A".
Proof.
  split.
  - exact (proj1 (node_text chain "x" "a")).
  - apply (proj2 (node_text chain "x" "a")). reflexivity.
Defined.

Lemma radial_id_is_file_name_notes :
  radial_row "notes/c" (mkDetails "C" None [])
  = Some (mkRow (Some "c") "notes" (mkDetails "C" None []))
  /\ radial_row "blog/c" (mkDetails "C" None [])
     = Some (mkRow (Some "c") "blog" (mkDetails "C" None [])).
Proof.
  split.
  - apply (radial_id_is_file_name "notes" "c" (mkDetails "C" None []));
      [reflexivity|discriminate|vm_compute; discriminate].
  - apply (radial_id_is_file_name "blog" "c" (mkDetails "C" None []));
      [reflexivity|discriminate|vm_compute; discriminate].
Defined.

Lemma radial_drops_tag_pages_x :
  radial_row "tags/x" (mkDetails "T" None []) = None.
Proof.
  apply (radial_drops_tag_pages "tags" "x" (mkDetails "T" None []));
    [reflexivity|discriminate|reflexivity].
Defined.

Lemma radial_folder_index_docs :
  radial_row "docs/index" (mkDetails "D" None [])
  = Some (mkRow (Some "docs") "index" (mkDetails "D" None []))
  /\ radial_row "docs" (mkDetails "D" None [])
     = Some (mkRow (Some "docs") "index" (mkDetails "D" None []))
  /\ radial_row "index" (mkDetails "D" None [])
     = Some (mkRow (Some "index") EmptyString (mkDetails "D" None [])).
Proof.
  apply (radial_folder_index "docs" (mkDetails "D" None []));
    [reflexivity|discriminate].
Defined.

(** The index page of the folder [tags] has a row. *)
Example radial_tags_index :
  radial_row "tags/index" (mkDetails "T" None [])
  = Some (mkRow (Some "tags") "index" (mkDetails "T" None [])).
Proof. reflexivity. Qed.

Lemma unreadable_store_stays_ref :
  nav_visits JSONRef.parse JSONRef.stringify ["a"; "b"] (Some "{oops")
  = (Some "{oops", [Some SyntaxError; Some SyntaxError]).
Proof.
  apply (unreadable_store_stays JSONRef.parse JSONRef.stringify
           (Some "{oops") SyntaxError ["a"; "b"]).
  vm_compute. reflexivity.
Defined.

Example readable_store_is_written :
  nav_visits JSONRef.parse JSONRef.stringify ["a"; "b"; "a"] None
  = (Some (JSONRef.stringify (JArray [JString "a"; JString "b"])),
     [None; None; None]).
Proof. reflexivity. Qed.

(** The page [notes/index] is stored under its full slug and drawn under
    the identifier [notes/]: after the visit its node is still drawn as not
    visited. *)
Lemma color_after_visit_index_page :
  exists visited',
    getVisited JSONRef.parse
      (Some (JSONRef.stringify (JArray [JString "notes/index"])))
    = Returned visited'
    /\ (color "a" visited' (mkNode "notes/" "Notes" []) = secondary
        <-> id (mkNode "notes/" "Notes" []) = "a")
    /\ (color "a" visited' (mkNode "notes/" "Notes" []) = tertiary
        <-> id (mkNode "notes/" "Notes" []) <> "a"
            /\ (In (JString (id (mkNode "notes/" "Notes" []))) []
                \/ id (mkNode "notes/" "Notes" []) = "notes/index"
                \/ startsWith (id (mkNode "notes/" "Notes" [])) "tags/" = true)).
Proof.
  apply (color_after_visit JSONRef.parse JSONRef.stringify None
           (Some (JSONRef.stringify (JArray [JString "notes/index"])))
           "notes/index" [] "a" (mkNode "notes/" "Notes" [])).
  - vm_compute. reflexivity.
  - vm_compute. reflexivity.
  - vm_compute. reflexivity.
Defined.

Example index_page_not_visited :
  color "a" [JString "notes/index"] (mkNode "notes/" "Notes" []) = gray.
Proof. reflexivity. Qed.

Example icon_after_five_navs :
  fold_left nav_icon
    [mkLayout false true false; mkLayout true false false;
     mkLayout false false true; mkLayout true false true;
     mkLayout true false false] []
  = [Force; RadialTidy; RadialCluster].
Proof. reflexivity. Qed.

(* ================================================================== *)
(** * The hierarchy of the radial renderers *)

Section StratifyFacts.
Variable rows : list RadialRow.

Lemma holders_In (key : string) (h : nat) :
  In h (holders rows key) -> h < List.length rows.
Proof.
  unfold holders. intro H. apply filter_In in H. destruct H as [H _].
  apply in_seq in H. lia.
Qed.

Lemma parent_of_lt (j h : nat) :
  parent_of rows j = Some h -> h < List.length rows.
Proof.
  unfold parent_of. destruct (nth_error rows j) as [row|]; [|discriminate].
  destruct (row_parent row) as [key|]; [|discriminate].
  destruct (holders rows key) as [|h' [|]] eqn:E; try discriminate.
  intros [= <-]. apply (holders_In key). rewrite E. now left.
Qed.

Lemma children_In (i j : nat) :
  In j (children rows i)
  <-> j < List.length rows /\ parent_of rows j = Some i.
Proof.
  unfold children. rewrite filter_In, in_seq. split.
  - intros [Hj H]. split; [lia|].
    destruct (parent_of rows j) as [h|]; [|discriminate].
    apply Nat.eqb_eq in H. now subst.
  - intros [Hj H]. split; [lia|]. rewrite H. apply Nat.eqb_refl.
Qed.

Lemma children_NoDup (i : nat) : NoDup (children rows i).
Proof. apply NoDup_filter, seq_NoDup. Qed.

Lemma NoDup_flat_map_children (level : list nat) :
  NoDup level -> NoDup (flat_map (children rows) level).
Proof.
  induction 1 as [|i level Hi Hnd IH]; simpl; [constructor|].
  apply NoDup_app; [apply children_NoDup|assumption|].
  intros j Hj F. apply children_In in Hj. destruct Hj as [_ Hj].
  apply in_flat_map in F. destruct F as [i' [Hi' F]].
  apply children_In in F. destruct F as [_ F].
  assert (i = i') by congruence. subst. contradiction.
Qed.

Section Rooted.
Variable root : nat.
Hypothesis root_lt : root < List.length rows.
Hypothesis root_top : parent_of rows root = None.

Lemma ancestor_root (k : nat) : ancestor rows (S k) root = None.
Proof. simpl. now rewrite root_top. Qed.

(** A node is at one depth below the root. *)
Lemma ancestor_depth (k : nat) :
  forall m j,
    ancestor rows k j = Some root -> ancestor rows m j = Some root -> k = m.
Proof.
  induction k as [|k IH]; intros [|m] j Hk Hm.
  - reflexivity.
  - simpl in Hk. injection Hk as ->. rewrite ancestor_root in Hm. discriminate.
  - simpl in Hm. injection Hm as ->. rewrite ancestor_root in Hk. discriminate.
  - simpl in Hk, Hm. destruct (parent_of rows j) as [h|]; [|discriminate].
    f_equal. now apply IH with h.
Qed.

Lemma breadth_first_NoDup (fuel : nat) :
  forall (k : nat) (level : list nat),
    NoDup level ->
    (forall j, In j level ->
       j < List.length rows /\ ancestor rows k j = Some root) ->
    NoDup (breadth_first rows fuel level)
    /\ forall j, In j (breadth_first rows fuel level) ->
         j < List.length rows
         /\ exists m, k <= m /\ ancestor rows m j = Some root.
Proof.
  induction fuel as [|fuel IH]; intros k level Hnd Hlevel; simpl.
  - split; [constructor|]. intros j [].
  - destruct level as [|i level]; [split; [constructor|intros j []]|].
    set (l := i :: level) in *.
    destruct (IH (S k) (flat_map (children rows) l)) as [Hn Hm].
    { now apply NoDup_flat_map_children. }
    { intros j Hj. apply in_flat_map in Hj. destruct Hj as [h [Hh Hj]].
      apply children_In in Hj. destruct Hj as [Hlt Hp].
      split; [assumption|]. simpl. rewrite Hp. now apply Hlevel. }
    split.
    + apply NoDup_app; [assumption|assumption|].
      intros j Hj F. destruct (Hlevel j Hj) as [_ Hk].
      destruct (Hm j F) as [_ [m [Hle Ha]]].
      assert (k = m) by now apply ancestor_depth with j. lia.
    + intros j Hj. apply in_app_or in Hj. destruct Hj as [Hj|Hj].
      * destruct (Hlevel j Hj) as [Hlt Hk]. split; [assumption|].
        exists k. split; [lia|assumption].
      * destruct (Hm j Hj) as [Hlt [m [Hle Ha]]]. split; [assumption|].
        exists m. split; [lia|assumption].
Qed.

(** When no fewer nodes are reached than there are rows, every row is
    reached, once. *)
Lemma breadth_first_all (fuel : nat) :
  List.length rows <= List.length (breadth_first rows fuel [root]) ->
  Permutation (breadth_first rows fuel [root]) (seq 0 (List.length rows)).
Proof.
  intro Hlen.
  destruct (breadth_first_NoDup fuel 0 [root]) as [Hnd Hin].
  { constructor; [intros []|constructor]. }
  { intros j [<-|[]]. split; [assumption|reflexivity]. }
  assert (Hincl : incl (breadth_first rows fuel [root])
                       (seq 0 (List.length rows))).
  { intros j Hj. apply in_seq. destruct (Hin j Hj). lia. }
  apply NoDup_Permutation; [assumption|apply seq_NoDup|].
  intro j. split; [apply Hincl|].
  apply (NoDup_length_incl Hnd); [now rewrite length_seq|assumption].
Qed.
End Rooted.

(** What the second loop has checked when it ends without error. *)
Lemma link_rows_checked (todo : list RadialRow) :
  forall (done : list RadialRow) (root0 : option nat) (r : nat),
    rows = done ++ todo ->
    link_rows rows todo (List.length done) root0 = inr (Some r) ->
    (root0 = None \/ root0 = Some r)
    /\ forall k row,
         nth_error todo k = Some row ->
         match row_parent row with
         | Some key => exists h, holders rows key = [h]
         | None => root0 = None /\ r = List.length done + k
         end.
Proof.
  induction todo as [|row todo IH]; intros done root0 r Hrows H.
  - simpl in H. injection H as ->. split; [now right|].
    intros [|k] row'; discriminate.
  - simpl in H.
    assert (Hrows' : rows = (done ++ [row]) ++ todo)
      by now rewrite <- app_assoc.
    assert (Hlen : S (List.length done) = List.length (done ++ [row]))
      by (rewrite length_app; simpl; lia).
    destruct (row_parent row) as [key|] eqn:Ep.
    + destruct (holders rows key) as [|h [|h' l]] eqn:Eh; try discriminate.
      rewrite Hlen in H. destruct (IH _ _ _ Hrows' H) as [Hroot Hall].
      split; [assumption|]. intros [|k] row' Hk.
      * simpl in Hk. injection Hk as <-. rewrite Ep. now exists h.
      * simpl in Hk. specialize (Hall k row' Hk).
        destruct (row_parent row'); [assumption|].
        rewrite <- Hlen in Hall. destruct Hall. split; [assumption|lia].
    + destruct root0 as [r0|]; [discriminate|].
      rewrite Hlen in H. destruct (IH _ _ _ Hrows' H) as [Hroot Hall].
      destruct Hroot as [Hroot|Hroot]; [discriminate|].
      injection Hroot as <-.
      split; [now left|]. intros [|k] row' Hk.
      * simpl in Hk. injection Hk as <-. rewrite Ep. split; [reflexivity|lia].
      * simpl in Hk. specialize (Hall k row' Hk).
        destruct (row_parent row'); [assumption|].
        destruct Hall as [F _]. discriminate.
Qed.

Lemma rows_at_seq (done todo : list RadialRow) :
  flat_map (fun i => match nth_error (done ++ todo) i with
                     | Some row => [row]
                     | None => []
                     end)
           (seq (List.length done) (List.length todo))
  = todo.
Proof.
  revert done. induction todo as [|row todo IH]; intro done; simpl.
  - reflexivity.
  - rewrite nth_error_app2 by lia. rewrite Nat.sub_diag. simpl. f_equal.
    replace (done ++ row :: todo) with ((done ++ [row]) ++ todo)
      by now rewrite <- app_assoc.
    replace (S (List.length done)) with (List.length (done ++ [row]))
      by (rewrite length_app; simpl; lia).
    apply IH.
Qed.

(** The root found is a row without parent. *)
Lemma link_rows_root (todo : list RadialRow) :
  forall (done : list RadialRow) (r : nat),
    rows = done ++ todo ->
    link_rows rows todo (List.length done) None = inr (Some r) ->
    exists row, nth_error rows r = Some row /\ row_parent row = None.
Proof.
  induction todo as [|row todo IH]; intros done r Hrows H.
  - discriminate.
  - simpl in H.
    assert (Hrows' : rows = (done ++ [row]) ++ todo)
      by now rewrite <- app_assoc.
    assert (Hlen : S (List.length done) = List.length (done ++ [row]))
      by (rewrite length_app; simpl; lia).
    destruct (row_parent row) as [key|] eqn:Ep.
    + destruct (holders rows key) as [|h [|h' l]] eqn:Eh; try discriminate.
      rewrite Hlen in H. now apply IH with (done ++ [row]).
    + rewrite Hlen in H.
      destruct (link_rows_checked _ _ _ _ Hrows' H) as [[F|E] _];
        [discriminate|].
      injection E as <-. exists row. split; [|assumption].
      rewrite Hrows, nth_error_app2 by lia. now rewrite Nat.sub_diag.
Qed.

Lemma length_links_at (r : nat) (nodes : list nat) :
  (forall j, In j nodes ->
     exists row, nth_error rows j = Some row
       /\ match row_parent row with
          | Some key => j <> r /\ exists h, holders rows key = [h]
          | None => r = j
          end) ->
  NoDup nodes ->
  List.length (links_at rows nodes)
  + (if existsb (Nat.eqb r) nodes then 1 else 0)
  = List.length nodes.
Proof.
  induction nodes as [|j nodes IH]; intros Hall Hnd; [reflexivity|].
  inversion Hnd as [|? ? Hj Hnd']; subst.
  assert (IH' := IH (fun k Hk => Hall k (or_intror Hk)) Hnd').
  destruct (Hall j (or_introl eq_refl)) as [row [Hrow Hp]].
  unfold links_at in *. cbn [flat_map existsb]. rewrite length_app.
  unfold parent_of at 1. rewrite Hrow.
  destruct (row_parent row) as [key|] eqn:Ep.
  - destruct Hp as [Hne [h Hh]]. rewrite Hh.
    assert (Hlt : h < List.length rows)
      by (apply (holders_In key); rewrite Hh; now left).
    apply nth_error_Some in Hlt.
    destruct (nth_error rows h) as [parent|]; [|contradiction].
    assert (Hneb : Nat.eqb r j = false) by (apply Nat.eqb_neq; congruence).
    rewrite Hneb. simpl. lia.
  - subst j. rewrite Nat.eqb_refl. simpl.
    destruct (existsb (Nat.eqb r) nodes) eqn:E.
    + apply existsb_exists in E. destruct E as [x [Hx E]].
      apply Nat.eqb_eq in E. subst x. contradiction.
    + lia.
Qed.

(** When [d3.stratify] accepts the table, its hierarchy holds every row
    once, and a link for every row but the root. *)
Lemma stratify_accepts (nodes : list nat) :
  stratify rows = inr nodes ->
  Permutation (rows_at rows nodes) rows
  /\ List.length (links_at rows nodes) + 1 = List.length rows
  /\ NoDup nodes.
Proof.
  unfold stratify. intro H.
  destruct (link_rows rows rows 0 None) as [e|[r|]] eqn:El; try discriminate.
  destruct (Nat.ltb_spec
              (List.length (breadth_first rows (S (List.length rows)) [r]))
              (List.length rows)) as [|Hlen]; [discriminate|].
  injection H as <-.
  destruct (link_rows_root rows [] r eq_refl El) as [root [Hroot Htop]].
  destruct (link_rows_checked rows [] None r eq_refl El) as [_ Hall].
  assert (Hlt : r < List.length rows)
    by (apply nth_error_Some; rewrite Hroot; discriminate).
  assert (Hp : parent_of rows r = None)
    by (unfold parent_of; now rewrite Hroot, Htop).
  assert (Hperm := breadth_first_all r Hlt Hp _ Hlen).
  assert (Hnd : NoDup (breadth_first rows (S (List.length rows)) [r])).
  { apply (Permutation_NoDup (Permutation_sym Hperm)), seq_NoDup. }
  split; [|split; [|assumption]].
  - unfold rows_at.
    rewrite (Permutation_flat_map _ Hperm).
    assert (E := rows_at_seq [] rows). simpl in E. now rewrite E.
  - assert (Hl : List.length (breadth_first rows (S (List.length rows)) [r])
                = List.length rows)
      by (rewrite (Permutation_length Hperm); apply length_seq).
    assert (Hin : In r (breadth_first rows (S (List.length rows)) [r])).
    { apply (Permutation_in _ (Permutation_sym Hperm)), in_seq. lia. }
    assert (E : existsb (Nat.eqb r)
                  (breadth_first rows (S (List.length rows)) [r]) = true).
    { apply existsb_exists. exists r. split; [assumption|apply Nat.eqb_refl]. }
    assert (Hc := length_links_at r
                    (breadth_first rows (S (List.length rows)) [r])).
    rewrite E, Hl in Hc. apply Hc; [|assumption].
    intros j Hj.
    apply (Permutation_in _ Hperm), in_seq in Hj.
    destruct (nth_error rows j) as [row|] eqn:Ej;
      [|apply nth_error_None in Ej; lia].
    exists row. split; [reflexivity|].
    specialize (Hall j row Ej).
    destruct (row_parent row) as [key|] eqn:Ep.
    + split; [|assumption]. intros ->. congruence.
    + destruct Hall as [_ ->]. reflexivity.
Qed.
End StratifyFacts.

(** X21.  When [d3.stratify] accepts the table of a radial renderer, the
    renderer draws the rows of [dataRadial], every row once and in some
    order, and one link for every row but one, the root's. *)
Theorem radial_draws_every_row (data : ContentIndex) (cfg : Config)
    (slug : SimpleSlug) (drawing : RadialDrawing) :
  renderRadialGraph data cfg slug = inr drawing
  \/ renderRadialTidyGraph data cfg slug = inr drawing ->
  Permutation (radial_nodes drawing) (dataRadial data)
  /\ List.length (radial_links drawing) + 1 = List.length (dataRadial data).
Proof.
  intro H.
  assert (Hd : radial_drawing data = inr drawing) by (destruct H; exact H).
  unfold radial_drawing in Hd.
  destruct (stratify (dataRadial data)) as [e|nodes] eqn:Es; [discriminate|].
  injection Hd as <-. simpl.
  destruct (stratify_accepts _ _ Es) as [Hp [Hl _]]. now split.
Qed.

Lemma radial_draws_every_row_folders :
  exists drawing,
    renderRadialGraph folders (mkConfig 1 [] false) "index" = inr drawing
    /\ map row_id (radial_nodes drawing) = [Some "index"; Some "docs"; Some "x"]
    /\ map row_id (dataRadial folders) = [Some "x"; Some "index"; Some "docs"]
    /\ Permutation (radial_nodes drawing) (dataRadial folders)
    /\ List.length (radial_links drawing) + 1
       = List.length (dataRadial folders).
Proof.
  eexists. split; [vm_compute; reflexivity|].
  split; [reflexivity|]. split; [reflexivity|].
  apply (radial_draws_every_row folders (mkConfig 1 [] false) "index").
  left. vm_compute. reflexivity.
Defined.
